(** * microbeam: pattern-addressed request/reply runtime (index.js)

    A shallow embedding of [index.js]: the key regular expression [keydx],
    the directory watch callback, [instance.send], the inbound message
    callback with its [reply] helper, the timeout sweep
    [fireRequestTimeouts], [main] and [instance.on].

    Conventions of the embedding.
    - Strings are sequences of code units below 256.
    - The three plain objects [patterns], [requests] and [sockets] are
      finite maps from strings; a property read on them also sees the
      properties every plain object inherits from [Object.prototype].
    - A callback either returns or throws; the mutations it made before
      throwing stay in the state.
    - Time is an argument: [send] and the sweep take the value of
      [new Date().valueOf()], in milliseconds.
    - A promise is a slot that is pending or settled; [resolve] and
      [reject] settle it only while it is pending.
    - Socket operations are recorded on a wire log.  Whether the transport
      call inside [send] throws is an input of [send].
    - Application handlers are not run: whether the call of a handler
      returns or throws is an input of the message callback, and the
      completion of a handler's promise is an event of its own.

    The libraries the file calls are not part of the repository: jsonic
    (pattern text), bloomrun (the pattern index) and hyperid (ids).  Their
    behaviour is modelled from the specification and marked as such;
    message and pattern values are scalars there. *)

From Stdlib Require Import Ascii String DecimalString DecimalN DecimalPos.
From stdpp Require Import base strings list gmap sorting.

Open Scope string_scope.
Open Scope list_scope.

(** ** Values and plain objects *)

(** Scalars carried by patterns and messages: a numeral or a string. *)
Inductive value : Type :=
| VNum (n : N)
| VStr (s : string).

#[global] Instance value_eq_dec : EqDecision value.
Proof. solve_decision. Defined.

(** A JavaScript plain object used as a record of fields: its own
    enumerable properties, in insertion order. *)
Abbreviation obj := (list (string * value)) (only parsing).

Fixpoint obj_get (k : string) (o : obj) : option value :=
  match o with
  | [] => None
  | (k', v) :: o' => if decide (k = k') then Some v else obj_get k o'
  end.

(** [o[k] = v]: an existing property keeps its position. *)
Fixpoint obj_set (k : string) (v : value) (o : obj) : obj :=
  match o with
  | [] => [(k, v)]
  | (k', v') :: o' =>
      if decide (k = k') then (k, v) :: o' else (k', v') :: obj_set k v o'
  end.

(** [_.assign(target, source)]. *)
Definition assign (target source : obj) : obj :=
  foldl (fun t kv => obj_set kv.1 kv.2 t) target source.

(** ** PatternCodec (jsonic) *)

(** A pattern is an object whose keys are strictly increasing. *)
Abbreviation Pattern := (list (string * value)) (only parsing).

Definition key_lt (a b : string * value) : Prop := strict String.le a.1 b.1.

Fixpoint insert_sorted (k : string) (v : value) (p : Pattern) : Pattern :=
  match p with
  | [] => [(k, v)]
  | (k', v') :: p' =>
      if decide (k = k') then (k, v) :: p'
      else if decide (String.le k k') then (k, v) :: (k', v') :: p'
      else (k', v') :: insert_sorted k v p'
  end.

(** Modelled from the spec: jsonic is missing from the sources.
    "normalize(raw) -> Pattern parses a textual or structured pattern
    description into key-sorted canonical form": the structured half. *)
Definition normalize (o : obj) : Pattern :=
  foldr (fun kv p => insert_sorted kv.1 kv.2 p) [] o.

Definition show_value (v : value) : string :=
  match v with
  | VNum n => NilZero.string_of_uint (N.to_uint n)
  | VStr s => s
  end.

Definition show_pair (kv : string * value) : string :=
  kv.1 +:+ ":" +:+ show_value kv.2.

(** Modelled from the spec: jsonic is missing from the sources.
    "serialize(Pattern) -> string", the canonical serialized string form;
    the characters are those the key expression [keydx] admits. *)
Definition serialize (p : Pattern) : string :=
  "{" +:+ String.concat "," (show_pair <$> p) +:+ "}".

(** [sonic.stringify(o)] for an object [o]. *)
Definition stringify (o : obj) : string := serialize (normalize o).

(** [sonic.stringify(x)] where [x] is a lookup result, possibly [null]. *)
Definition stringify_opt (x : option Pattern) : string :=
  match x with
  | Some p => stringify p
  | None => "null"
  end.

Definition is_digit (c : ascii) : bool :=
  (("0" <=? c) && (c <=? "9"))%char.

Definition is_alpha (c : ascii) : bool :=
  ((("a" <=? c) && (c <=? "z")) || (("A" <=? c) && (c <=? "Z")))%char.

(** Characters of an unquoted key. *)
Definition word_char (c : ascii) : bool :=
  is_alpha c || is_digit c || bool_decide (c = "_"%char)
  || bool_decide (c = "$"%char).

(** Characters of an unquoted value. *)
Definition token_char (c : ascii) : bool :=
  word_char c || bool_decide (c = "."%char) || bool_decide (c = "-"%char)
  || bool_decide (c = "+"%char).

Fixpoint all_chars (f : ascii -> bool) (s : string) : bool :=
  match s with
  | EmptyString => true
  | String c s' => f c && all_chars f s'
  end.

Definition nonempty (s : string) : bool :=
  match s with EmptyString => false | String _ _ => true end.

(** The pieces of [s] between occurrences of [sep]. *)
Fixpoint split_on (sep : ascii) (s : string) : list string :=
  match s with
  | EmptyString => [EmptyString]
  | String c s' =>
      if decide (c = sep) then EmptyString :: split_on sep s'
      else match split_on sep s' with
           | [] => [String c EmptyString]
           | w :: ws => String c w :: ws
           end
  end.

(** [s] without its last character, which has to be a closing brace. *)
Fixpoint drop_last_brace (s : string) : option string :=
  match s with
  | EmptyString => None
  | String c s' =>
      match s' with
      | EmptyString => if decide (c = "}"%char) then Some EmptyString else None
      | String _ _ => String c <$> drop_last_brace s'
      end
  end.

Definition parse_value (t : string) : option value :=
  if nonempty t && all_chars token_char t then
    match NilZero.uint_of_string t with
    | Some d => Some (VNum (N.of_uint d))
    | None => Some (VStr t)
    end
  else None.

Definition parse_pair (piece : string) : option (string * value) :=
  match split_on ":" piece with
  | [k; t] =>
      if nonempty k && all_chars word_char k then
        match parse_value t with
        | Some v => Some (k, v)
        | None => None
        end
      else None
  | _ => None
  end.

Fixpoint parse_pairs (pieces : list string) (acc : obj) : option obj :=
  match pieces with
  | [] => Some acc
  | piece :: rest =>
      match parse_pair piece with
      | Some (k, v) => parse_pairs rest (obj_set k v acc)
      | None => None
      end
  end.

Definition parse_body (body : string) : option obj :=
  match body with
  | EmptyString => Some []
  | String _ _ => parse_pairs (split_on "," body) []
  end.

(** Modelled from the spec: jsonic is missing from the sources.
    The textual half of "normalize(raw)": pattern text is a
    comma-separated list of [key:value] pairs, optionally in braces, with
    unquoted keys and scalar values; anything else "fails with
    MalformedPatternError on unparsable input" ([None]). *)
Definition parse (text : string) : option obj :=
  match text with
  | String "{" rest =>
      match drop_last_brace rest with
      | Some body => parse_body body
      | None => None
      end
  | _ => parse_body text
  end.

(** [sonic(text)]. *)
Definition sonic (text : string) : option Pattern :=
  normalize <$> parse text.

(** Pattern text that [sonic] and [sonic.stringify] map back to itself. *)
Definition canonical (k : string) : Prop :=
  exists p, sonic k = Some p /\ stringify p = k.

Definition canonicalb (k : string) : bool :=
  match sonic k with
  | Some p => bool_decide (stringify p = k)
  | None => false
  end.

(** ** PatternIndex (bloomrun) *)

(** Entries in registration order. *)
Abbreviation PatternIndex A := (list (Pattern * A)) (only parsing).

Section PatternIndex.
Context {A : Type}.

(** Modelled from the spec: bloomrun is missing from the sources.
    "a registered pattern P matches message M iff every key/value
    constraint in P is present and equal in M". *)
Definition matches (p : Pattern) (m : obj) : bool :=
  forallb (fun kv => bool_decide (obj_get kv.1 m = Some kv.2)) p.

(** "number of constrained keys". *)
Definition specificity (p : Pattern) : nat := length p.

(** Modelled from the spec: bloomrun is missing from the sources.
    "add(pattern, payload)": a new entry, registered last. *)
Definition index_add (p : Pattern) (a : A) (idx : PatternIndex A) : PatternIndex A :=
  idx ++ [(p, a)].

(** Modelled from the spec: bloomrun is missing from the sources.
    "remove(pattern)", which takes "the pattern from the global
    PatternIndex entirely": every entry with that pattern goes. *)
Definition index_remove (p : Pattern) (idx : PatternIndex A) : PatternIndex A :=
  filter (fun e => e.1 <> p) idx.

Definition pick (m : obj) (best : option (Pattern * A)) (e : Pattern * A)
  : option (Pattern * A) :=
  if matches e.1 m then
    match best with
    | None => Some e
    | Some b => if decide (specificity b.1 < specificity e.1) then Some e else Some b
    end
  else best.

(** Modelled from the spec: bloomrun is missing from the sources.
    "Among all matching patterns, the match with the greatest number of
    constrained keys (most specific) wins; ties broken by earliest
    registration order. lookup on no match returns none." *)
Definition index_lookup (m : obj) (idx : PatternIndex A) : option (Pattern * A) :=
  foldl (pick m) None idx.

End PatternIndex.


(** ** The key expression [keydx] *)

(** [\s] on code units below 256. *)
Definition is_space (c : ascii) : bool :=
  bool_decide (c = "009"%char) || bool_decide (c = "010"%char)
  || bool_decide (c = "011"%char) || bool_decide (c = "012"%char)
  || bool_decide (c = "013"%char) || bool_decide (c = " "%char)
  || bool_decide (c = "160"%char).

(** The class [[a-zA-Z0-9\{\}\:\-\_\s\.\,\+]]. *)
Definition keydx_class (c : ascii) : bool :=
  is_alpha c || is_digit c
  || bool_decide (c = "{"%char) || bool_decide (c = "}"%char)
  || bool_decide (c = ":"%char) || bool_decide (c = "-"%char)
  || bool_decide (c = "_"%char) || is_space c
  || bool_decide (c = "."%char) || bool_decide (c = ","%char)
  || bool_decide (c = "+"%char).

(** The longest prefix of class characters, and what follows it. *)
Fixpoint take_class (s : string) : string * string :=
  match s with
  | EmptyString => (EmptyString, EmptyString)
  | String c s' =>
      if keydx_class c then
        let '(g, r) := take_class s' in (String c g, r)
      else (EmptyString, s)
  end.

Fixpoint strip_prefix (p s : string) : option string :=
  match p with
  | EmptyString => Some s
  | String a p' =>
      match s with
      | EmptyString => None
      | String b s' => if decide (a = b) then strip_prefix p' s' else None
      end
  end.

Definition eroot : string := "/services".

(** A match of [keydx] that starts at the first character of [s]: the two
    groups.  Each group is a greedy [+] over the class; the slash after
    the first group is outside the class, so only the longest run of class
    characters can be followed by it. *)
Definition keydx_at (s : string) : option (string * string) :=
  match strip_prefix (eroot +:+ "/") s with
  | None => None
  | Some r =>
      let '(g1, r1) := take_class r in
      match r1 with
      | String "/" r2 =>
          let '(g2, _) := take_class r2 in
          if nonempty g1 && nonempty g2 then Some (g1, g2) else None
      | _ => None
      end
  end.

(** [keydx.exec(key)]: the leftmost match; [None] is JavaScript's [null].
    The result stands for the array [[match, pattern, host]]. *)
Fixpoint keydx_exec (key : string) : option (string * string) :=
  match keydx_at key with
  | Some r => Some r
  | None =>
      match key with
      | EmptyString => None
      | String _ key' => keydx_exec key'
      end
  end.

(** ** Plain objects used as tables *)

(** Names every plain object inherits from [Object.prototype]. *)
Definition object_prototype_keys : list string :=
  [ "constructor"; "__defineGetter__"; "__defineSetter__"; "hasOwnProperty";
    "__lookupGetter__"; "__lookupSetter__"; "isPrototypeOf";
    "propertyIsEnumerable"; "toString"; "valueOf"; "__proto__";
    "toLocaleString" ].

(** The result of the property read [table[k]]. *)
Inductive property (A : Type) : Type :=
| Own (a : A)
| Inherited
| Undefined.

Arguments Own {A} a.
Arguments Inherited {A}.
Arguments Undefined {A}.

Definition js_get {A : Type} (table : gmap string A) (k : string) : property A :=
  match table !! k with
  | Some a => Own a
  | None => if bool_decide (k ∈ object_prototype_keys) then Inherited else Undefined
  end.

(** ** Runtime state *)

Inductive js_error : Type :=
| TypeError
| SyntaxError
| Error (message : string)
| Thrown (payload : string).

#[global] Instance js_error_eq_dec : EqDecision js_error.
Proof. solve_decision. Defined.

(** How a callback ends. *)
Inductive completion : Type :=
| Returns
| Throws (e : js_error).

(** The envelope [meta] of a frame. *)
Record meta : Type := Meta {
  requestId : option string;
  returnUrl : string;
  mode : option string;
  error : option string
}.

(** JavaScript truthiness of an optional string field. *)
Definition truthy (x : option string) : bool :=
  match x with
  | Some s => nonempty s
  | None => false
  end.

Inductive settlement : Type :=
| Fulfilled (msg : obj)
| Rejected (e : js_error).

(** An entry [{resolve, reject, expiresOn}] of [requests]; [resolve] and
    [reject] are the two capabilities of the promise [promise]. *)
Record request : Type := Request {
  promise : nat;
  expiresOn : Z
}.

Inductive socket : Type :=
| PushConnected
| PushBound.

Inductive socket_op : Type :=
| OpConnect (address : string)
| OpBind (address : string)
| OpSend (address : string) (m : meta) (msg : obj).

(** A JavaScript [Map] from host to address, in insertion order. *)
Abbreviation HostMap := (list (string * string)) (only parsing).

Definition map_has (host : string) (m : HostMap) : bool :=
  bool_decide (host ∈ m.*1).

Definition map_delete (host : string) (m : HostMap) : HostMap :=
  filter (fun e => e.1 <> host) m.

Fixpoint map_set (host address : string) (m : HostMap) : HostMap :=
  match m with
  | [] => [(host, address)]
  | (h, a) :: m' =>
      if decide (host = h) then (h, address) :: m'
      else (h, a) :: map_set host address m'
  end.

Record state : Type := State {
  url : string;
  sidPrefix : string;
  sidCount : N;
  bloom : PatternIndex nat;
  gloBloom : PatternIndex unit;
  patterns : gmap string HostMap;
  requests : gmap string request;
  sockets : gmap string socket;
  promises : list (option settlement);
  wire : list socket_op
}.

Definition set_gloBloom (g : PatternIndex unit) (s : state) : state :=
  State (url s) (sidPrefix s) (sidCount s) (bloom s) g (patterns s)
        (requests s) (sockets s) (promises s) (wire s).

Definition set_patterns (p : gmap string HostMap) (s : state) : state :=
  State (url s) (sidPrefix s) (sidCount s) (bloom s) (gloBloom s) p
        (requests s) (sockets s) (promises s) (wire s).

Definition set_requests (r : gmap string request) (s : state) : state :=
  State (url s) (sidPrefix s) (sidCount s) (bloom s) (gloBloom s) (patterns s)
        r (sockets s) (promises s) (wire s).

Definition set_sockets (k : gmap string socket) (s : state) : state :=
  State (url s) (sidPrefix s) (sidCount s) (bloom s) (gloBloom s) (patterns s)
        (requests s) k (promises s) (wire s).

Definition set_promises (p : list (option settlement)) (s : state) : state :=
  State (url s) (sidPrefix s) (sidCount s) (bloom s) (gloBloom s) (patterns s)
        (requests s) (sockets s) p (wire s).

Definition emit (op : socket_op) (s : state) : state :=
  State (url s) (sidPrefix s) (sidCount s) (bloom s) (gloBloom s) (patterns s)
        (requests s) (sockets s) (promises s) (wire s ++ [op]).

Definition bump_sid (s : state) : state :=
  State (url s) (sidPrefix s) (N.succ (sidCount s)) (bloom s) (gloBloom s)
        (patterns s) (requests s) (sockets s) (promises s) (wire s).

(** ** Ids *)

Fixpoint replace_slash (s : string) : string :=
  match s with
  | EmptyString => EmptyString
  | String c s' =>
      String (if decide (c = "/"%char) then ":"%char else c) (replace_slash s')
  end.

(** Modelled from the spec: hyperid is missing from the sources.
    "request-ids are globally unique for the lifetime of the issuing
    process": a prefix fixed per process, a slash and a running count. *)
Definition sid (prefix : string) (count : N) : string :=
  prefix +:+ "/" +:+ NilZero.string_of_uint (N.to_uint count).

(** [genId()], at the current count of the generator. *)
Definition genId (s : state) : string :=
  replace_slash (sid (sidPrefix s) (sidCount s)).

(** ** Promises *)

(** Calling [resolve] or [reject] of promise [p]: only the first call
    settles it. *)
Definition settle (p : nat) (o : settlement) (ps : list (option settlement))
  : list (option settlement) :=
  match ps !! p with
  | Some None => <[p := Some o]> ps
  | _ => ps
  end.

(** ** The directory watch callback *)

Definition is_removal (action : string) : bool :=
  bool_decide (action = "expire") || bool_decide (action = "delete").

(** The body of [if (action === 'expire' || action === 'delete')].
    [patterns] is a plain object and has no method [delete]: the call
    [patterns.delete(pattern)] that ends the inner branch raises a
    [TypeError] after [gloBloom.remove] has run. *)
Definition watch_removal (pattern host : string) (s : state) : state * completion :=
  match js_get (patterns s) pattern with
  | Undefined => (s, Returns)
  | Inherited => (s, Throws TypeError)
  | Own hosts =>
      if map_has host hosts then
        let hosts' := map_delete host hosts in
        let s1 := set_patterns (<[pattern := hosts']> (patterns s)) s in
        if bool_decide (length hosts' = 0) then
          match sonic pattern with
          | None => (s1, Throws SyntaxError)
          | Some p =>
              (set_gloBloom (index_remove p (gloBloom s1)) s1, Throws TypeError)
          end
        else (s1, Returns)
      else (s, Returns)
  end.

(** The body of [if (action === 'set')]. *)
Definition watch_set (pattern host value : string) (s : state) : state * completion :=
  let s1 :=
    match js_get (patterns s) pattern with
    | Undefined => set_patterns (<[pattern := []]> (patterns s)) s
    | _ => s
    end in
  match js_get (patterns s1) pattern with
  | Own hosts =>
      if map_has host hosts then (s1, Returns)
      else
        let s2 :=
          set_patterns (<[pattern := map_set host value hosts]> (patterns s1)) s1 in
        match sonic pattern with
        | None => (s2, Throws SyntaxError)
        | Some p => (set_gloBloom (index_add p tt (gloBloom s2)) s2, Returns)
        end
  | _ => (s1, Throws TypeError)
  end.

(** The ['change'] listener.  [keydx.exec] yields [null] on a key that
    does not match, and the array destructuring of [null] raises a
    [TypeError] before the guard is reached. *)
Definition watch_change (action key value : string) (s : state) : state * completion :=
  match keydx_exec key with
  | None => (s, Throws TypeError)
  | Some (pattern, host) =>
      if negb (nonempty pattern) || negb (nonempty host) then (s, Returns)
      else
        let '(s1, c1) :=
          if is_removal action then watch_removal pattern host s else (s, Returns) in
        match c1 with
        | Throws e => (s1, Throws e)
        | Returns =>
            if bool_decide (action = "set") then watch_set pattern host value s1
            else (s1, Returns)
        end
  end.

(** ** [instance.send] *)

Definition unroutable_message (msg : obj) (patternStr : string) : string :=
  "Message pattern is unroutable: " +:+ stringify msg
  +:+ ", potential: " +:+ patternStr.

Definition no_host_message (patternStr : string) : string :=
  "Message is not routable to any host " +:+ patternStr.

Definition default_timeout : Z := 5000.

(** A new promise whose executor has finished with outcome [o]
    ([None]: still pending).  The result is the state and the promise. *)
Definition new_promise (o : option settlement) (s : state) : state * nat :=
  (set_promises (promises s ++ [o]) s, length (promises s)).

(** [instance.send(msg)] called at time [now].  [tx] tells whether the
    transport call [remote.send(..)] throws, and what.  An exception
    inside the executor rejects the promise. *)
Definition send (now : Z) (msg : obj) (tx : option string) (s0 : state)
  : state * nat :=
  let rid := genId s0 in
  let s := bump_sid s0 in
  let pattern := fst <$> index_lookup msg (gloBloom s) in
  let patternStr := stringify_opt pattern in
  match pattern with
  | None => new_promise (Some (Rejected (Error (unroutable_message msg patternStr)))) s
  | Some _ =>
      if negb (nonempty patternStr) then
        new_promise (Some (Rejected (Error (unroutable_message msg patternStr)))) s
      else
        match js_get (patterns s) patternStr with
        | Undefined =>
            new_promise (Some (Rejected (Error (unroutable_message msg patternStr)))) s
        | Inherited => new_promise (Some (Rejected TypeError)) s
        | Own [] =>
            new_promise (Some (Rejected (Error (no_host_message patternStr)))) s
        | Own ((_, address) :: _) =>
            let s1 :=
              match js_get (sockets s) address with
              | Undefined =>
                  emit (OpConnect address)
                       (set_sockets (<[address := PushConnected]> (sockets s)) s)
              | _ => s
              end in
            let s2 :=
              set_requests
                (<[rid := Request (length (promises s)) (now + default_timeout)]>
                   (requests s1)) s1 in
            match js_get (sockets s1) address, tx with
            | Own _, None =>
                new_promise None
                  (emit (OpSend address (Meta (Some rid) (url s) None None) msg) s2)
            | Own _, Some e => new_promise (Some (Rejected (Thrown e))) s2
            | _, _ => new_promise (Some (Rejected TypeError)) s2
            end
        end
  end.

(** ** The inbound message callback *)

(** The helper [reply(err, msg)] of a request with envelope [m]. *)
Definition reply (m : meta) (err : option string) (msg : obj) (s : state)
  : state * completion :=
  let s1 :=
    match js_get (sockets s) (returnUrl m) with
    | Undefined =>
        emit (OpBind (returnUrl m))
             (set_sockets (<[returnUrl m := PushBound]> (sockets s)) s)
    | _ => s
    end in
  match js_get (sockets s1) (returnUrl m) with
  | Own _ =>
      if truthy err then
        (emit (OpSend (returnUrl m)
                      (Meta (requestId m) (url s) (Some "reply") err) []) s1,
         Returns)
      else
        (emit (OpSend (returnUrl m)
                      (Meta (requestId m) (url s) (Some "reply") None) msg) s1,
         Returns)
  | _ => (s1, Throws TypeError)
  end.

(** [if (meta.error) reject(meta.error) else resolve(msg)]. *)
Definition reply_outcome (m : meta) (msg : obj) : settlement :=
  if truthy (error m) then Rejected (Thrown (default "" (error m)))
  else Fulfilled msg.

(** [sock.on('message', ..)] on a decoded frame [[m, msg]].  A matched
    handler is called while the argument of [Promise.resolve] is
    evaluated, before any promise exists: [called] is the outcome of that
    call.  When the handler throws there, the exception leaves the
    callback and nothing is replied; when it returns, its result settles
    later ([handler_done]). *)
Definition on_message (m : meta) (msg : obj) (called : completion) (s : state)
  : state * completion :=
  if bool_decide (mode m = Some "reply") then
    if truthy (requestId m) then
      let rid := default "" (requestId m) in
      match js_get (requests s) rid with
      | Undefined => (s, Returns)
      | Inherited => (s, Throws TypeError)
      | Own r =>
          let s1 := set_requests (delete rid (requests s)) s in
          (set_promises (settle (promise r) (reply_outcome m msg) (promises s1)) s1,
           Returns)
      end
    else (s, Returns)
  else
    match index_lookup msg (bloom s) with
    | Some _ => (s, called)
    | None => reply m (Some "no handler") [] s
    end.

(** The [.then($ => reply(null, $)).catch($ => reply($))] chain, once the
    handler's promise has settled with [r]. *)
Definition handler_done (m : meta) (r : obj + string) (s : state) : state :=
  match r with
  | inl v =>
      let '(s1, c) := reply m None v s in
      match c with
      | Returns => s1
      | Throws _ => (reply m (Some "TypeError") [] s1).1
      end
  | inr e => (reply m (Some e) [] s).1
  end.

(** ** The timeout sweep *)

Definition expired (now : Z) (r : request) : bool :=
  bool_decide (expiresOn r < now)%Z.

Definition sweep_cadence : Z := 25.

(** Calling [reject] (or [resolve]) with [o] for each of the entries. *)
Definition settle_all (o : settlement) (gone : list (string * request))
    (ps : list (option settlement)) : list (option settlement) :=
  foldr (fun e ps => settle (promise e.2) o ps) ps gone.

(** [fireRequestTimeouts()] run at time [now]; the result carries the
    delay of the [setTimeout] that re-arms it. *)
Definition fireRequestTimeouts (now : Z) (s : state) : state * Z :=
  let gone :=
    filter (fun e => expired now e.2 = true) (map_to_list (requests s)) in
  let ps := settle_all (Rejected (Error "timeout")) gone (promises s) in
  (set_promises ps
     (set_requests (filter (fun e => expired now e.2 = false) (requests s)) s),
   sweep_cadence).

(** ** [main] and the event loop *)

Fixpoint add_handlers (handlers : list (string * nat)) (idx : PatternIndex nat)
  : option (PatternIndex nat) :=
  match handlers with
  | [] => Some idx
  | (pattern, h) :: rest =>
      match sonic pattern with
      | Some p => add_handlers rest (index_add p h idx)
      | None => None
      end
  end.

(** The state [main] sets up; [create] has drawn one id already. *)
Definition boot (prefix address : string) (idx : PatternIndex nat) : state :=
  State address prefix 1 idx [] ∅ ∅ ∅ [] [].

Definition main (prefix address : string) (handlers : list (string * nat))
  : option state :=
  boot prefix address <$> add_handlers handlers [].

Inductive event : Type :=
| EvWatch (action key value : string)
| EvSend (now : Z) (msg : obj) (tx : option string)
| EvMessage (m : meta) (msg : obj) (called : completion)
| EvHandlerDone (m : meta) (r : obj + string)
| EvSweep (now : Z).

Definition step (s : state) (ev : event) : state :=
  match ev with
  | EvWatch action key value => (watch_change action key value s).1
  | EvSend now msg tx => (send now msg tx s).1
  | EvMessage m msg called => (on_message m msg called s).1
  | EvHandlerDone m r => handler_done m r s
  | EvSweep now => (fireRequestTimeouts now s).1
  end.

Definition run (evs : list event) (s : state) : state := foldl step s evs.

(** ** [instance.on] *)

Inductive description : Type :=
| Text (t : string)
| Structured (o : obj).

(** The pattern string [instance.on] stores for a description, under the
    service prefix [prefix]. *)
Definition on (prefix : obj) (d : description) : option string :=
  match d with
  | Text t => (fun o => stringify (assign (assign [] prefix) o)) <$> sonic t
  | Structured o => Some (stringify (assign (assign [] prefix) o))
  end.

(** ** Notions used in the statements *)

(** Key-sorted, the canonical form of a pattern. *)
Definition sorted (p : Pattern) : Prop := StronglySorted key_lt p.

Definition wf_value (v : value) : bool :=
  match v with
  | VNum _ => true
  | VStr s =>
      nonempty s && all_chars token_char s
      && match NilZero.uint_of_string s with None => true | Some _ => false end
  end.

Definition wf_pair (kv : string * value) : bool :=
  nonempty kv.1 && all_chars word_char kv.1 && wf_value kv.2.

(** The patterns of the codec: key-sorted, unquoted keys and scalars. *)
Definition wf_pattern (p : Pattern) : Prop :=
  sorted p /\ Forall (fun kv => wf_pair kv = true) p.

(** [sep] does not occur in [s]. *)
Definition free (sep : ascii) (s : string) : bool :=
  all_chars (fun c => bool_decide (c <> sep)) s.


(** Every constraint of [p] is present with an equal value in [m]. *)
Definition satisfies (m : obj) (p : Pattern) : Prop :=
  forall k v, (k, v) ∈ p -> obj_get k m = Some v.

(** The constraints a description states, in the order it states them. *)
Definition described (d : description) : option obj :=
  match d with
  | Text t => parse t
  | Structured o => Some o
  end.

(** The hosts recorded under the key [k] of [patterns]. *)
Definition live_hosts (s : state) (k : string) : HostMap :=
  default [] (patterns s !! k).

(** The pattern is an entry of the global index. *)
Definition indexed (s : state) (p : Pattern) : Prop := p ∈ (gloBloom s).*1.

(** The pattern segment of a watch event's key, when the key has the
    expected shape, is one of the segments [K]. *)
Definition segment_in (K : string -> Prop) (ev : event) : Prop :=
  match ev with
  | EvWatch _ key _ =>
      forall pattern host, keydx_exec key = Some (pattern, host) -> K pattern
  | _ => True
  end.

(** No two different segments of [K] spell the same pattern. *)
Definition unambiguous (K : string -> Prop) : Prop :=
  forall k1 k2 p, K k1 -> K k2 -> sonic k1 = Some p -> sonic k2 = Some p -> k1 = k2.

Definition directory_inv (K : string -> Prop) (s : state) : Prop :=
  forall k p, K k -> sonic k = Some p ->
    (indexed s p <-> live_hosts s k <> []).

(** The two errors with which [send] reports that a message cannot be
    routed. *)
Definition unroutable_error (msg : obj) (e : js_error) : Prop :=
  exists patternStr,
    e = Error (unroutable_message msg patternStr)
    \/ e = Error (no_host_message patternStr).

(** The id the generator with prefix [prefix] hands out at count [n]. *)
Definition request_id (prefix : string) (n : N) : string :=
  replace_slash (sid prefix n).

Definition pending (s : state) (p : nat) : Prop := promises s !! p = Some None.

Definition settled_with (s : state) (p : nat) (o : settlement) : Prop :=
  promises s !! p = Some (Some o).

Definition timeout_error : js_error := Error "timeout".

(** What holds of the request table in every state the runtime reaches:
    entries sit under generated ids and refer to allocated promises, no
    two entries share a promise, and a pending promise has an entry. *)
Definition requests_inv (s : state) : Prop :=
  (forall rid r, requests s !! rid = Some r ->
     promise r < length (promises s)
     /\ exists n, (n < sidCount s)%N /\ rid = request_id (sidPrefix s) n)
  /\ (forall rid1 rid2 r1 r2,
        requests s !! rid1 = Some r1 -> requests s !! rid2 = Some r2 ->
        promise r1 = promise r2 -> rid1 = rid2)
  /\ (forall p, pending s p ->
        exists rid r, requests s !! rid = Some r /\ promise r = p).

(** A step that touches neither the request table, nor the promises, nor
    the id generator. *)
Definition same_requests (s s' : state) : Prop :=
  requests s' = requests s /\ promises s' = promises s
  /\ sidPrefix s' = sidPrefix s /\ sidCount s' = sidCount s.

(** ** [fixupUrl] and [create] *)

(** The class [[a-z0-9\.\-\:]] of the expression in [fixupUrl]. *)
Definition host_class (c : ascii) : bool :=
  (("a" <=? c) && (c <=? "z"))%char || is_digit c
  || bool_decide (c = "."%char) || bool_decide (c = "-"%char)
  || bool_decide (c = ":"%char).

(** The longest prefix of characters satisfying [f], and what follows. *)
Fixpoint take_while (f : ascii -> bool) (s : string) : string * string :=
  match s with
  | EmptyString => (EmptyString, EmptyString)
  | String c s' =>
      if f c then let '(g, r) := take_while f s' in (String c g, r)
      else (EmptyString, s)
  end.

(** [r] split at its last colon. *)
Fixpoint split_last_colon (r : string) : option (string * string) :=
  match r with
  | EmptyString => None
  | String c r' =>
      match split_last_colon r' with
      | Some (b, a) => Some (String c b, a)
      | None => if decide (c = ":"%char) then Some (EmptyString, r') else None
      end
  end.

(** A match of [/\:\/\/[a-z0-9\.\-\:]+\:/] that starts at the first
    character of [s]: the matched text and what follows it.  The class
    contains the colon, so the greedy [+] runs over the whole run of class
    characters and backtracks to the last colon in it that leaves the [+]
    at least one character. *)
Definition host_match_at (s : string) : option (string * string) :=
  match strip_prefix "://" s with
  | None => None
  | Some rest =>
      let '(run, tail) := take_while host_class rest in
      match run with
      | EmptyString => None
      | String c run' =>
          match split_last_colon run' with
          | Some (b, a) => Some ("://" +:+ String c b +:+ ":", a +:+ tail)
          | None => None
          end
      end
  end.

(** The leftmost match: the text before it, the match, the text after. *)
Fixpoint host_match (s : string) : option (string * string * string) :=
  match host_match_at s with
  | Some (m, a) => Some (EmptyString, m, a)
  | None =>
      match s with
      | EmptyString => None
      | String c s' =>
          match host_match s' with
          | Some (b, m, a) => Some (String c b, m, a)
          | None => None
          end
      end
  end.

(** The replacement text of [String.prototype.replace] for a template
    and an expression without capture groups: [$$], [$&], [$`] and [$']
    are substituted, any other dollar stands for itself. *)
Fixpoint expand (matched before after template : string) : string :=
  match template with
  | EmptyString => EmptyString
  | String c t1 =>
      if decide (c = "$"%char) then
        match t1 with
        | String d t2 =>
            if decide (d = "$"%char) then
              String "$" (expand matched before after t2)
            else if decide (d = "&"%char) then
              matched +:+ expand matched before after t2
            else if decide (d = "`"%char) then
              before +:+ expand matched before after t2
            else if decide (d = "'"%char) then
              after +:+ expand matched before after t2
            else String "$" (expand matched before after t1)
        | EmptyString => String "$" EmptyString
        end
      else String c (expand matched before after t1)
  end.

(** [fixupUrl(url)] under the environment value [extIp] of
    [MICRO_EXT_IP] ([None]: unset). *)
Definition fixupUrl (extIp : option string) (url0 : string) : string :=
  if truthy extIp then
    match host_match url0 with
    | Some (b, m, a) =>
        b +:+ expand m b a ("://" +:+ default "" extIp +:+ ":") +:+ a
    | None => url0
    end
  else url0.

Definition proto : string := "tcp".

(** The address [create] binds: [MICRO_EXT_PORT || 0]. *)
Definition bind_address (extPort : option string) : string :=
  proto +:+ "://*:" +:+ (if truthy extPort then default "" extPort else "0").

(** What [create] resolves with, apart from the socket: the id and the
    advertised url, given the endpoint the socket reports. *)
Definition create (extIp : option string) (prefix last_endpoint : string)
  : string * string :=
  (request_id prefix 0, fixupUrl extIp last_endpoint).

(** [create] followed by [main]. *)
Definition start (extIp : option string) (prefix last_endpoint : string)
    (handlers : list (string * nat)) : option state :=
  main prefix (create extIp prefix last_endpoint).2 handlers.

(** ** [updateServiceDirectory] *)

Inductive etcd_op : Type :=
| EtcdSet (key value : string) (ttl : Z).

(** The key [`${eroot}/${pattern}/${id}`]. *)
Definition publish_key (pattern id : string) : string :=
  eroot +:+ "/" +:+ pattern +:+ "/" +:+ id.

(** The [etcd.set] calls of one cycle, one per handler. *)
Definition publish_ops (id url0 : string) (handlers : list (string * nat))
  : list etcd_op :=
  (fun h => EtcdSet (publish_key h.1 id) url0 60) <$> handlers.

(** How the callback of one [etcd.set] ends: without error, with an
    error, or not at all. *)
Inductive set_result : Type :=
| SetOk
| SetErr (e : string)
| SetLost.

Inductive timer : Type :=
| PostInitTimer (delay : Z)
| PublishTimer (delay : Z).

Definition is_err (r : set_result) : bool :=
  match r with SetErr _ => true | _ => false end.

Definition is_ok (r : set_result) : bool :=
  match r with SetOk => true | _ => false end.

(** One run of [updateServiceDirectory], given how the callbacks end:
    the new value of [calledUpdateYet] and the timers it sets.
    [Promise.all] rejects as soon as one promise rejects, resolves when
    all have resolved, and otherwise stays pending. *)
Definition updateServiceDirectory (hasPostInit : bool)
    (results : list set_result) (calledUpdateYet : bool) : bool * list timer :=
  if existsb is_err results then (calledUpdateYet, [PublishTimer 5000])
  else if forallb is_ok results then
    (true,
     (if negb calledUpdateYet && hasPostInit then [PostInitTimer 1500] else [])
     ++ [PublishTimer 5000])
  else (calledUpdateYet, []).

Definition is_publish (t : timer) : bool :=
  match t with PublishTimer _ => true | PostInitTimer _ => false end.

(** Successive cycles, each started by the timer of the one before. *)
Fixpoint publish_cycles (hasPostInit : bool) (cycles : list (list set_result))
    (calledUpdateYet : bool) : bool * list timer :=
  match cycles with
  | [] => (calledUpdateYet, [])
  | results :: rest =>
      let '(called, timers) :=
        updateServiceDirectory hasPostInit results calledUpdateYet in
      if existsb is_publish timers then
        let '(called', timers') := publish_cycles hasPostInit rest called in
        (called', timers ++ timers')
      else (called, timers)
  end.

(** ** Notions used in the further statements *)

Definition is_post_init (t : timer) : bool :=
  match t with PostInitTimer _ => true | PublishTimer _ => false end.

(** The operation creates the socket for [address]. *)
Definition creates (address : string) (op : socket_op) : bool :=
  match op with
  | OpConnect a => bool_decide (a = address)
  | OpBind a => bool_decide (a = address)
  | OpSend _ _ _ => false
  end.

(** Every socket is created once, and frames go out on sockets of the
    table only. *)
Definition pool_ok (table : gmap string socket) (w : list socket_op) : Prop :=
  (forall address,
      length (filter (fun op => creates address op = true) w)
      = match table !! address with Some _ => 1 | None => 0 end)
  /\ (forall address m msg,
        OpSend address m msg ∈ w -> is_Some (table !! address)).

Definition pool_inv (s : state) : Prop := pool_ok (sockets s) (wire s).

(** The characters of a hyperid prefix: the base64 alphabet. *)
Definition base64_char (c : ascii) : bool :=
  is_alpha c || is_digit c || bool_decide (c = "+"%char)
  || bool_decide (c = "/"%char).

(** [tail] is empty or starts with a character outside [f]. *)
Definition stops (f : ascii -> bool) (tail : string) : bool :=
  match tail with
  | EmptyString => true
  | String c _ => negb (f c)
  end.

(** Entries of the request table sit under ids drawn after the process
    id. *)
Definition request_ids_inv (s : state) : Prop :=
  (1 <= sidCount s)%N
  /\ forall rid r, requests s !! rid = Some r ->
       exists n, (1 <= n < sidCount s)%N /\ rid = request_id (sidPrefix s) n.

(** What a callback may do to the socket table and the wire: create the
    socket of an address that has none, or send a frame on a socket of
    the table. *)
Inductive pool_step :
  gmap string socket -> list socket_op ->
  gmap string socket -> list socket_op -> Prop :=
| pool_same k w : pool_step k w k w
| pool_create k w a x op :
    k !! a = None -> op = OpConnect a \/ op = OpBind a ->
    pool_step k w (<[a := x]> k) (w ++ [op])
| pool_send k w a m msg :
    is_Some (k !! a) -> pool_step k w k (w ++ [OpSend a m msg])
| pool_trans k1 w1 k2 w2 k3 w3 :
    pool_step k1 w1 k2 w2 -> pool_step k2 w2 k3 w3 -> pool_step k1 w1 k3 w3.

(** * Properties *)

(** ** Objects and normalisation *)

Lemma obj_get_set k k' v o :
  obj_get k (obj_set k' v o) = if decide (k = k') then Some v else obj_get k o.
Proof.
  induction o as [|[k1 v1] o IH]; simpl.
  - by repeat case_decide.
  - destruct (decide (k' = k1)) as [->|Hne]; simpl.
    + by repeat case_decide.
    + rewrite IH. repeat case_decide; congruence.
Qed.

Lemma obj_get_insert_sorted k k' v p :
  obj_get k (insert_sorted k' v p)
  = if decide (k = k') then Some v else obj_get k p.
Proof.
  induction p as [|[k1 v1] p IH]; simpl.
  - by repeat case_decide.
  - destruct (decide (k' = k1)) as [->|Hne]; simpl.
    + by repeat case_decide.
    + destruct (decide (String.le k' k1)); simpl.
      * repeat case_decide; congruence.
      * rewrite IH. repeat case_decide; congruence.
Qed.

Lemma obj_get_normalize k o : obj_get k (normalize o) = obj_get k o.
Proof.
  induction o as [|[k1 v1] o IH]; simpl; [done|].
  rewrite obj_get_insert_sorted, IH. by repeat case_decide.
Qed.

Lemma obj_get_None k o : obj_get k o = None <-> k ∉ o.*1.
Proof.
  induction o as [|[k1 v1] o IH]; simpl.
  - split; [intros _; apply not_elem_of_nil | done].
  - rewrite not_elem_of_cons. case_decide; [|tauto].
    split; [done | intros [? _]; congruence].
Qed.

Lemma obj_get_Some k v o : obj_get k o = Some v -> (k, v) ∈ o.
Proof.
  induction o as [|[k1 v1] o IH]; simpl; [done|].
  case_decide as Hk.
  - intros [= ->]. subst. apply list_elem_of_here.
  - intros ?. apply list_elem_of_further. auto.
Qed.



Lemma obj_get_assign k t o :
  NoDup o.*1 ->
  obj_get k (assign t o)
  = match obj_get k o with Some v => Some v | None => obj_get k t end.
Proof.
  unfold assign. revert t.
  induction o as [|[k1 v1] o IH]; intros t Hd; simpl; [done|].
  apply NoDup_cons in Hd as [Hn Hd].
  rewrite IH by done. simpl. rewrite obj_get_set.
  apply obj_get_None in Hn. simpl in Hn.
  destruct (decide (k = k1)) as [->|Hk]; [by rewrite Hn | done].
Qed.

Lemma key_lt_trans a b c : key_lt a b -> key_lt b c -> key_lt a c.
Proof. unfold key_lt. intros. by etrans. Qed.

Lemma key_lt_of_le k k' v v' :
  String.le k k' -> k <> k' -> key_lt (k, v) (k', v').
Proof. intros. apply strict_spec_alt. by split. Qed.

Lemma key_lt_of_not_le k k' v v' :
  ~ String.le k k' -> key_lt (k', v') (k, v).
Proof.
  intros Hn. apply strict_spec_alt. simpl.
  destruct (total String.le k k'); [done|].
  split; [done|]. intros ->. by apply Hn.
Qed.

Lemma Forall_insert_sorted (P : string * value -> Prop) k v p :
  P (k, v) -> Forall P p -> Forall P (insert_sorted k v p).
Proof.
  intros Hk. induction 1 as [|[k1 v1] p H1 Hp IH]; simpl.
  - by constructor.
  - repeat case_decide; repeat constructor; auto.
Qed.

Lemma insert_sorted_sorted k v p : sorted p -> sorted (insert_sorted k v p).
Proof.
  unfold sorted. induction 1 as [|[k1 v1] p Hs IH Hall]; simpl.
  - by repeat constructor.
  - destruct (decide (k = k1)) as [->|Hne].
    + by constructor.
    + destruct (decide (String.le k k1)) as [Hle|Hnle].
      * pose proof (key_lt_of_le k k1 v v1 Hle Hne) as Hlt.
        constructor; [by constructor|].
        constructor; [done|].
        eapply Forall_impl; [exact Hall|]. intros x Hx.
        by eapply key_lt_trans.
      * constructor; [done|].
        apply Forall_insert_sorted; [|done].
        by apply key_lt_of_not_le.
Qed.

Lemma normalize_sorted o : sorted (normalize o).
Proof.
  induction o as [|[k v] o IH]; simpl.
  - constructor.
  - by apply insert_sorted_sorted.
Qed.

Lemma key_lt_get_None k v p : Forall (key_lt (k, v)) p -> obj_get k p = None.
Proof.
  intros Hall. apply obj_get_None. intros [[k' v'] [Hk Hin]]%list_elem_of_fmap.
  simpl in Hk. subst k'.
  rewrite Forall_forall in Hall. apply Hall in Hin.
  by apply (irreflexivity (strict String.le) k).
Qed.

Lemma key_lt_get_Some k v p k' v' :
  Forall (key_lt (k, v)) p -> obj_get k' p = Some v' -> strict String.le k k'.
Proof.
  intros Hall Hg. apply obj_get_Some in Hg.
  rewrite Forall_forall in Hall. by apply Hall in Hg.
Qed.

Lemma sorted_get_ext p q :
  sorted p -> sorted q -> (forall k, obj_get k p = obj_get k q) -> p = q.
Proof.
  unfold sorted. intros Hp. revert q.
  induction Hp as [|[k1 v1] p Hp IH Hall]; intros q Hq Hext.
  - destruct q as [|[k2 v2] q]; [done|].
    specialize (Hext k2). simpl in Hext. by rewrite decide_True in Hext.
  - destruct Hq as [|[k2 v2] q Hq Hall2].
    { specialize (Hext k1). simpl in Hext. by rewrite decide_True in Hext. }
    assert (k1 = k2) as ->.
    { pose proof (Hext k1) as H1. pose proof (Hext k2) as H2. simpl in H1, H2.
      rewrite decide_True in H1 by done.
      rewrite (decide_True (P := k2 = k2)) in H2 by done.
      destruct (decide (k1 = k2)) as [|Hne]; [done|].
      rewrite decide_False in H2 by congruence.
      symmetry in H1.
      apply (key_lt_get_Some _ _ _ _ _ Hall2) in H1.
      apply (key_lt_get_Some _ _ _ _ _ Hall) in H2.
      destruct (irreflexivity (strict String.le) k1). by etrans. }
    assert (v1 = v2) as ->.
    { specialize (Hext k2). simpl in Hext.
      rewrite !decide_True in Hext by done. congruence. }
    f_equal. apply IH; [done|]. intros k.
    destruct (decide (k = k2)) as [->|Hne].
    + by rewrite (key_lt_get_None _ _ _ Hall), (key_lt_get_None _ _ _ Hall2).
    + specialize (Hext k). simpl in Hext. by rewrite !decide_False in Hext.
Qed.

Lemma normalize_ext o1 o2 :
  (forall k, obj_get k o1 = obj_get k o2) -> normalize o1 = normalize o2.
Proof.
  intros Hext. apply sorted_get_ext; [apply normalize_sorted..|].
  intros k. by rewrite !obj_get_normalize.
Qed.

Lemma normalize_id p : sorted p -> normalize p = p.
Proof.
  intros Hp. apply sorted_get_ext; [apply normalize_sorted | done |].
  intros k. apply obj_get_normalize.
Qed.

Lemma sorted_NoDup p : sorted p -> NoDup p.*1.
Proof.
  unfold sorted. induction 1 as [|[k v] p Hp IH Hall]; simpl.
  - constructor.
  - constructor; [|done]. apply obj_get_None. by eapply key_lt_get_None.
Qed.

(** ** Serialisation round trip *)

Lemma all_chars_app f a b :
  all_chars f (a +:+ b) = all_chars f a && all_chars f b.
Proof.
  induction a as [|c a IH]; simpl; [done|].
  rewrite IH. by destruct (f c).
Qed.

Lemma all_chars_impl (f g : ascii -> bool) s :
  (forall c, f c = true -> g c = true) ->
  all_chars f s = true -> all_chars g s = true.
Proof.
  intros Hfg. induction s as [|c s IH]; simpl; [done|].
  intros [Hc Hs]%andb_prop. rewrite (Hfg c Hc). simpl. auto.
Qed.

Lemma nonempty_app a b : nonempty a = true -> nonempty (a +:+ b) = true.
Proof. by destruct a. Qed.

Lemma split_on_not_nil sep s : split_on sep s <> [].
Proof.
  destruct s as [|c s]; simpl; [done|].
  case_decide; [done|]. by destruct (split_on sep s).
Qed.

Lemma split_on_free sep s : free sep s = true -> split_on sep s = [s].
Proof.
  unfold free. induction s as [|c s IH]; simpl; [done|].
  intros [Hc Hs]%andb_prop. apply bool_decide_eq_true in Hc.
  rewrite decide_False by done. by rewrite IH.
Qed.

Lemma split_on_app sep a b :
  free sep a = true ->
  split_on sep (a +:+ String sep b) = a :: split_on sep b.
Proof.
  unfold free. induction a as [|c a IH]; simpl.
  - intros _. by rewrite decide_True.
  - intros [Hc Hs]%andb_prop. apply bool_decide_eq_true in Hc.
    rewrite decide_False by done. by rewrite IH.
Qed.

Lemma word_char_token c : word_char c = true -> token_char c = true.
Proof. unfold token_char. intros ->. done. Qed.

Lemma digit_token c : is_digit c = true -> token_char c = true.
Proof.
  unfold token_char, word_char. intros ->.
  by rewrite orb_true_r.
Qed.

Lemma token_char_free sep c :
  token_char sep = false -> token_char c = true -> bool_decide (c <> sep) = true.
Proof. intros Hs Hc. apply bool_decide_eq_true. intros ->. congruence. Qed.

Lemma token_free sep s :
  token_char sep = false -> all_chars token_char s = true -> free sep s = true.
Proof.
  intros Hs. apply all_chars_impl. intros c. by apply token_char_free.
Qed.

Lemma digits_of_uint d : all_chars is_digit (NilEmpty.string_of_uint d) = true.
Proof. induction d; simpl; auto. Qed.

Lemma show_num_digits n :
  all_chars is_digit (NilZero.string_of_uint (N.to_uint n)) = true
  /\ nonempty (NilZero.string_of_uint (N.to_uint n)) = true.
Proof.
  unfold NilZero.string_of_uint.
  destruct (N.to_uint n) eqn:Hd; simpl; try done; split; try done;
    apply digits_of_uint.
Qed.

Lemma to_uint_not_nil n : N.to_uint n <> Decimal.Nil.
Proof.
  destruct n as [|p]; simpl; [done|].
  apply DecimalPos.Unsigned.to_uint_nonnil.
Qed.

Lemma show_value_token v :
  wf_value v = true ->
  nonempty (show_value v) = true /\ all_chars token_char (show_value v) = true.
Proof.
  destruct v as [n|s]; simpl.
  - intros _. destruct (show_num_digits n) as [Hd Hn]. split; [done|].
    revert Hd. apply all_chars_impl, digit_token.
  - intros [[Hn Ht]%andb_prop _]%andb_prop. done.
Qed.

Lemma parse_value_show v :
  wf_value v = true -> parse_value (show_value v) = Some v.
Proof.
  intros Hwf. unfold parse_value.
  destruct (show_value_token v Hwf) as [-> ->]. simpl.
  destruct v as [n|s]; simpl.
  - rewrite NilZero.usu by apply to_uint_not_nil.
    by rewrite DecimalN.Unsigned.of_to.
  - simpl in Hwf. apply andb_prop in Hwf as [_ Hu].
    by destruct (NilZero.uint_of_string s).
Qed.

Lemma parse_value_wf t v : parse_value t = Some v -> wf_value v = true.
Proof.
  unfold parse_value.
  destruct (nonempty t && all_chars token_char t) eqn:Ht; [|done].
  destruct (NilZero.uint_of_string t) eqn:Hu; intros [= <-]; simpl; [done|].
  by rewrite Ht, Hu.
Qed.

Lemma parse_pair_show kv :
  wf_pair kv = true -> parse_pair (show_pair kv) = Some kv.
Proof.
  destruct kv as [k v]. unfold wf_pair, show_pair, parse_pair. simpl.
  intros [[Hn Hk]%andb_prop Hv]%andb_prop.
  destruct (show_value_token v Hv) as [_ Ht].
  change (":" +:+ show_value v) with (String ":" (show_value v)).
  rewrite split_on_app.
  2:{ apply (token_free ":"); [done|]. revert Hk.
      apply all_chars_impl, word_char_token. }
  rewrite split_on_free by (by apply token_free).
  by rewrite Hn, Hk, parse_value_show.
Qed.

Lemma parse_pair_wf piece kv : parse_pair piece = Some kv -> wf_pair kv = true.
Proof.
  unfold parse_pair, wf_pair.
  destruct (split_on ":" piece) as [|k [|t [|]]]; try done.
  destruct (nonempty k && all_chars word_char k) eqn:Hk; [|done].
  destruct (parse_value t) as [v|] eqn:Hv; [|done].
  intros [= <-]. simpl. rewrite Hk. by apply parse_value_wf in Hv.
Qed.

Lemma show_pair_free kv :
  wf_pair kv = true ->
  free "," (show_pair kv) = true /\ nonempty (show_pair kv) = true.
Proof.
  destruct kv as [k v]. unfold wf_pair, show_pair. simpl.
  intros [[Hn Hk]%andb_prop Hv]%andb_prop.
  destruct (show_value_token v Hv) as [_ Ht].
  split; [|by apply nonempty_app].
  unfold free. rewrite all_chars_app. simpl. rewrite andb_true_iff. split.
  - apply (token_free ","); [done|]. revert Hk.
    apply all_chars_impl, word_char_token.
  - by apply (token_free ",").
Qed.

Lemma split_on_concat pieces :
  pieces <> [] ->
  Forall (fun s => free "," s = true) pieces ->
  split_on "," (String.concat "," pieces) = pieces.
Proof.
  intros Hne Hall. induction Hall as [|x xs Hx Hxs IH]; [done|].
  destruct xs as [|y ys].
  - simpl. by apply split_on_free.
  - change (String.concat "," (x :: y :: ys))
      with (x +:+ String "," (String.concat "," (y :: ys))).
    rewrite split_on_app by done. by rewrite IH.
Qed.

Lemma obj_set_fresh k v o : k ∉ o.*1 -> obj_set k v o = o ++ [(k, v)].
Proof.
  induction o as [|[k1 v1] o IH]; simpl; [done|].
  intros [Hne Hn]%not_elem_of_cons.
  rewrite decide_False by done. by rewrite IH.
Qed.

Lemma parse_pairs_show p acc :
  Forall (fun kv => wf_pair kv = true) p ->
  NoDup (acc ++ p).*1 ->
  parse_pairs (show_pair <$> p) acc = Some (acc ++ p).
Proof.
  intros Hall. revert acc.
  induction Hall as [|[k v] p Hkv Hp IH]; intros acc Hd; simpl.
  - by rewrite app_nil_r.
  - rewrite parse_pair_show by done.
    rewrite fmap_app in Hd. simpl in Hd.
    assert (k ∉ acc.*1) as Hfresh.
    { apply NoDup_app in Hd as (_ & Hd & _). intros Hin.
      apply (Hd k Hin). apply list_elem_of_here. }
    rewrite obj_set_fresh by done.
    rewrite IH; [by rewrite <- app_assoc|].
    rewrite <- app_assoc, fmap_app. done.
Qed.

Lemma drop_last_brace_app body : drop_last_brace (body +:+ "}") = Some body.
Proof.
  induction body as [|c body IH]; [done|].
  change (String c body +:+ "}") with (String c (body +:+ "}")).
  cbn [drop_last_brace]. rewrite IH.
  by destruct body.
Qed.

Lemma parse_serialize p : wf_pattern p -> parse (serialize p) = Some p.
Proof.
  intros [Hs Hall]. unfold serialize.
  change ("{" +:+ ?x) with (String "{" x). cbn [parse].
  rewrite drop_last_brace_app. unfold parse_body.
  destruct p as [|kv p]; [done|].
  assert (nonempty (String.concat "," (show_pair <$> kv :: p)) = true) as Hne.
  { apply Forall_cons in Hall as [Hkv _].
    destruct (show_pair_free kv Hkv) as [_ Hn].
    rewrite fmap_cons. destruct (show_pair <$> p); [done|].
    change (String.concat "," (show_pair kv :: ?y :: ?ys))
      with (show_pair kv +:+ String "," (String.concat "," (y :: ys))).
    by apply nonempty_app. }
  destruct (String.concat "," (show_pair <$> kv :: p)) eqn:Hc; [done|].
  rewrite <- Hc. rewrite split_on_concat.
  - apply (parse_pairs_show (kv :: p) []); [done|]. by apply sorted_NoDup.
  - done.
  - apply Forall_fmap. eapply Forall_impl; [exact Hall|].
    intros x Hx. simpl. by apply show_pair_free.
Qed.

Lemma sonic_serialize p : wf_pattern p -> sonic (serialize p) = Some p.
Proof.
  intros Hwf. unfold sonic. rewrite parse_serialize by done. simpl.
  f_equal. apply normalize_id, Hwf.
Qed.

Lemma stringify_sorted p : sorted p -> stringify p = serialize p.
Proof. intros. unfold stringify. by rewrite normalize_id. Qed.


Lemma parse_pairs_wf pieces acc o :
  Forall (fun kv => wf_pair kv = true) acc ->
  parse_pairs pieces acc = Some o -> Forall (fun kv => wf_pair kv = true) o.
Proof.
  revert acc. induction pieces as [|piece rest IH]; intros acc Hacc; simpl.
  - by intros [= <-].
  - destruct (parse_pair piece) as [[k v]|] eqn:Hp; [|done].
    apply IH. apply parse_pair_wf in Hp.
    clear IH. induction Hacc as [|[k1 v1] acc H1 Hacc IHa]; simpl.
    + by constructor.
    + case_decide; constructor; auto.
Qed.

Lemma parse_wf t o : parse t = Some o -> Forall (fun kv => wf_pair kv = true) o.
Proof.
  assert (forall b, parse_body b = Some o ->
                    Forall (fun kv => wf_pair kv = true) o) as Hb.
  { intros [|c b]; simpl; [by intros [= <-]|]. by apply parse_pairs_wf. }
  unfold parse. destruct t as [|c t]; [exact (Hb EmptyString)|].
  destruct (decide (c = "{"%char)) as [->|Hne].
  - destruct (drop_last_brace t) as [body|]; [exact (Hb body) | done].
  - intros H. apply (Hb (String c t)).
    destruct c as [[] [] [] [] [] [] [] []]; done.
Qed.

Lemma sonic_wf t p : sonic t = Some p -> wf_pattern p.
Proof.
  unfold sonic. destruct (parse t) as [o|] eqn:Ho; [|done].
  intros [= <-]. split; [apply normalize_sorted|].
  apply parse_wf in Ho. unfold normalize.
  induction Ho as [|[k v] o Hkv Ho IH]; simpl; [constructor|].
  by apply Forall_insert_sorted.
Qed.

Lemma canonical_serialize p : wf_pattern p -> canonical (serialize p).
Proof.
  intros Hwf. exists p. split; [by apply sonic_serialize|].
  apply stringify_sorted, Hwf.
Qed.

Lemma canonical_inj k1 k2 p :
  canonical k1 -> canonical k2 -> sonic k1 = Some p -> sonic k2 = Some p -> k1 = k2.
Proof.
  intros (p1 & H1 & <-) (p2 & H2 & <-) Hk1 Hk2. congruence.
Qed.

Lemma canonicalb_spec k : canonicalb k = true <-> canonical k.
Proof.
  unfold canonicalb, canonical. split.
  - destruct (sonic k) as [p|]; [|done].
    intros H%bool_decide_eq_true. eauto.
  - intros (p & -> & Hp). by apply bool_decide_eq_true.
Qed.

Lemma stringify_own o : stringify o ∉ object_prototype_keys.
Proof.
  unfold stringify, serialize, object_prototype_keys.
  change ("{" +:+ ?x) with (String "{" x).
  intros H. repeat (apply elem_of_cons in H as [H|H]; [discriminate H|]).
  by apply elem_of_nil in H.
Qed.

(** ** The pattern index *)

Section IndexFacts.
Context {A : Type}.
Implicit Types (idx : PatternIndex A) (m : obj) (e : Pattern * A).

Lemma matches_satisfies p m : matches p m = true <-> satisfies m p.
Proof.
  unfold matches, satisfies. rewrite forallb_forall. split.
  - intros H k v Hin. apply list_elem_of_In in Hin.
    specialize (H _ Hin). by apply bool_decide_eq_true in H.
  - intros H [k v] Hin. apply bool_decide_eq_true, H. by apply list_elem_of_In.
Qed.

Lemma index_lookup_snoc m idx e :
  index_lookup m (idx ++ [e]) = pick m (index_lookup m idx) e.
Proof. unfold index_lookup. by rewrite foldl_app. Qed.

Lemma lookup_snoc_inv idx e j e' :
  (idx ++ [e]) !! j = Some e' ->
  idx !! j = Some e' \/ (j = length idx /\ e' = e).
Proof.
  intros [H|[Hj H]]%lookup_app_Some; [by left|right].
  destruct (j - length idx) as [|n] eqn:Hn; simpl in H; [|done].
  split; [lia | congruence].
Qed.

Lemma index_lookup_spec m idx :
  match index_lookup m idx with
  | Some e =>
      exists i, idx !! i = Some e /\ matches e.1 m = true /\
        forall j e', idx !! j = Some e' -> matches e'.1 m = true ->
          specificity e'.1 < specificity e.1
          \/ (specificity e'.1 = specificity e.1 /\ i <= j)
  | None => forall e', e' ∈ idx -> matches e'.1 m = false
  end.
Proof.
  induction idx as [|x l IH] using rev_ind.
  - simpl. intros e' H. by apply elem_of_nil in H.
  - rewrite index_lookup_snoc. unfold pick.
    destruct (matches x.1 m) eqn:Hx.
    + destruct (index_lookup m l) as [b|].
      * destruct IH as (i & Hi & Hb & Hbest).
        pose proof (lookup_lt_Some _ _ _ Hi) as Hlt.
        case_decide as Hsp.
        -- exists (length l). split; [by apply list_lookup_middle|].
           split; [done|]. intros j e' [Hj|[-> ->]]%lookup_snoc_inv He'.
           ++ left. destruct (Hbest j e' Hj He') as [?|[? ?]]; lia.
           ++ right. lia.
        -- exists i. split; [by rewrite lookup_app_l|].
           split; [done|]. intros j e' [Hj|[-> ->]]%lookup_snoc_inv He'.
           ++ by apply Hbest.
           ++ destruct (decide (specificity x.1 = specificity b.1)); [right|left]; lia.
      * exists (length l). split; [by apply list_lookup_middle|].
        split; [done|]. intros j e' [Hj|[-> ->]]%lookup_snoc_inv He'.
        -- apply list_elem_of_lookup_2 in Hj. apply IH in Hj. congruence.
        -- right. lia.
    + destruct (index_lookup m l) as [b|].
      * destruct IH as (i & Hi & Hb & Hbest).
        pose proof (lookup_lt_Some _ _ _ Hi) as Hlt.
        exists i. split; [by rewrite lookup_app_l|].
        split; [done|]. intros j e' [Hj|[-> ->]]%lookup_snoc_inv He'.
        -- by apply Hbest.
        -- congruence.
      * intros e' [Hin|Hin]%elem_of_app; [by apply IH|].
        apply list_elem_of_singleton in Hin. by subst.
Qed.

Lemma index_lookup_elem m idx e : index_lookup m idx = Some e -> e ∈ idx.
Proof.
  intros H. pose proof (index_lookup_spec m idx) as Hs. rewrite H in Hs.
  destruct Hs as (i & Hi & _). by eapply list_elem_of_lookup_2.
Qed.

Lemma elem_of_index_add p q (a : A) idx :
  p ∈ (index_add q a idx).*1 <-> p = q \/ p ∈ idx.*1.
Proof.
  unfold index_add. rewrite fmap_app, elem_of_app. simpl.
  rewrite list_elem_of_singleton. tauto.
Qed.

Lemma elem_of_index_remove p q idx :
  p ∈ (index_remove q idx).*1 <-> p <> q /\ p ∈ idx.*1.
Proof.
  unfold index_remove. rewrite !list_elem_of_fmap. split.
  - intros ([p' a] & -> & [Hne Hin]%list_elem_of_filter). split; [done|].
    by exists (p', a).
  - intros (Hne & [p' a] & -> & Hin). exists (p', a). split; [done|].
    by apply list_elem_of_filter.
Qed.

End IndexFacts.

(** ** [instance.on] *)

Lemma obj_set_keys k v o :
  (obj_set k v o).*1 = if decide (k ∈ o.*1) then o.*1 else o.*1 ++ [k].
Proof.
  induction o as [|[k1 v1] o IH]; csimpl; [done|].
  destruct (decide (k = k1)) as [->|Hne]; csimpl.
  - rewrite decide_True; [done | apply list_elem_of_here].
  - rewrite IH. destruct (decide (k ∈ o.*1)) as [Hin|Hn].
    + rewrite decide_True; [done | by apply list_elem_of_further].
    + rewrite decide_False; [done|]. by intros [?|?]%elem_of_cons.
Qed.

Lemma obj_set_NoDup k v o : NoDup o.*1 -> NoDup (obj_set k v o).*1.
Proof.
  intros Hd. rewrite obj_set_keys. case_decide as Hk; [done|].
  apply NoDup_app. split; [done|]. split; [|apply NoDup_singleton].
  intros x Hx Hx'. apply list_elem_of_singleton in Hx'. by subst.
Qed.

Lemma parse_pairs_NoDup pieces acc o :
  NoDup acc.*1 -> parse_pairs pieces acc = Some o -> NoDup o.*1.
Proof.
  revert acc. induction pieces as [|piece rest IH]; intros acc Hd; simpl.
  - by intros [= <-].
  - destruct (parse_pair piece) as [[k v]|]; [|done].
    apply IH. by apply obj_set_NoDup.
Qed.

Lemma parse_NoDup t o : parse t = Some o -> NoDup o.*1.
Proof.
  assert (forall b, parse_body b = Some o -> NoDup o.*1) as Hb.
  { intros [|c b]; simpl; [intros [= <-]; constructor|].
    apply parse_pairs_NoDup. constructor. }
  unfold parse. destruct t as [|c t]; [exact (Hb EmptyString)|].
  destruct (decide (c = "{"%char)) as [->|Hne].
  - destruct (drop_last_brace t) as [body|]; [exact (Hb body) | done].
  - intros H. apply (Hb (String c t)).
    destruct c as [[] [] [] [] [] [] [] []]; done.
Qed.

Lemma described_NoDup_text t o : described (Text t) = Some o -> NoDup o.*1.
Proof. apply parse_NoDup. Qed.

(** What [on] stores, in terms of the constraints the description states. *)
Lemma on_described prefix d o :
  described d = Some o -> NoDup o.*1 ->
  exists o', on prefix d = Some (stringify (assign (assign [] prefix) o'))
             /\ NoDup o'.*1 /\ forall k, obj_get k o' = obj_get k o.
Proof.
  destruct d as [t|o0]; simpl.
  - intros Hp Hd. unfold sonic. rewrite Hp. simpl.
    exists (normalize o). split; [done|].
    split; [apply sorted_NoDup, normalize_sorted|].
    intros k. apply obj_get_normalize.
  - intros [= ->] Hd. by exists o.
Qed.

Lemma stringify_assign_ext t o1 o2 :
  NoDup o1.*1 -> NoDup o2.*1 ->
  (forall k, obj_get k o1 = obj_get k o2) ->
  stringify (assign t o1) = stringify (assign t o2).
Proof.
  intros H1 H2 Hext. unfold stringify. f_equal. apply normalize_ext.
  intros k. rewrite !obj_get_assign by done. by rewrite Hext.
Qed.

Lemma assign_wf t o :
  Forall (fun kv => wf_pair kv = true) t ->
  Forall (fun kv => wf_pair kv = true) o ->
  Forall (fun kv => wf_pair kv = true) (assign t o).
Proof.
  unfold assign. intros Ht Ho. revert t Ht.
  induction Ho as [|[k v] o Hkv Ho IH]; intros t Ht; simpl; [done|].
  apply IH. clear IH.
  induction Ht as [|[k1 v1] t H1 Ht IHt]; simpl.
  - by constructor.
  - case_decide; constructor; auto.
Qed.

Lemma stringify_canonical o :
  Forall (fun kv => wf_pair kv = true) o -> canonical (stringify o).
Proof.
  intros Ho. apply canonical_serialize. split; [apply normalize_sorted|].
  unfold normalize. induction Ho as [|[k v] o Hkv Ho IH]; simpl; [constructor|].
  by apply Forall_insert_sorted.
Qed.

(** The pattern string [instance.on] stores for pattern text is in
    canonical form, when the service prefix is made of unquoted keys and
    scalars. *)
Lemma on_canonical prefix t k :
  Forall (fun kv => wf_pair kv = true) prefix ->
  on prefix (Text t) = Some k -> canonical k.
Proof.
  intros Hp. simpl. destruct (sonic t) as [p|] eqn:Hs; [|done].
  intros [= <-]. apply stringify_canonical, assign_wf.
  - by apply assign_wf.
  - apply sonic_wf in Hs. apply Hs.
Qed.

(** ** The key expression *)

Lemma keydx_at_nonempty s g1 g2 :
  keydx_at s = Some (g1, g2) -> nonempty g1 = true /\ nonempty g2 = true.
Proof.
  unfold keydx_at. destruct (strip_prefix _ s) as [r|]; [|done].
  destruct (take_class r) as [a r1].
  destruct r1 as [|c r2]; [done|].
  destruct (decide (c = "/"%char)) as [->|Hne].
  - destruct (take_class r2) as [b r3].
    destruct (nonempty a && nonempty b) eqn:Hn; [|done].
    intros [= <- <-]. by apply andb_prop in Hn.
  - destruct c as [[] [] [] [] [] [] [] []]; done.
Qed.

Lemma keydx_exec_nonempty key pattern host :
  keydx_exec key = Some (pattern, host) ->
  nonempty pattern = true /\ nonempty host = true.
Proof.
  induction key as [|c key IH]; cbn [keydx_exec].
  - done.
  - destruct (keydx_at (String c key)) as [[a b]|] eqn:Hat; [|done].
    intros [= <- <-]. by eapply keydx_at_nonempty.
Qed.

(** ** Property reads *)

Lemma js_get_Own {A} (t : gmap string A) k a : js_get t k = Own a <-> t !! k = Some a.
Proof.
  unfold js_get. destruct (t !! k) as [x|].
  - split; intros [= ->]; done.
  - case_bool_decide; split; intros Habs; discriminate Habs.
Qed.

Lemma js_get_lookup_None {A} (t : gmap string A) k :
  (js_get t k = Undefined \/ js_get t k = Inherited) <-> t !! k = None.
Proof.
  unfold js_get. destruct (t !! k) as [x|].
  - split; [intros [Habs|Habs]; discriminate Habs | intros Habs; discriminate Habs].
  - case_bool_decide; split; auto.
Qed.

Lemma js_get_absent {A} (t : gmap string A) k :
  t !! k = None -> k ∉ object_prototype_keys -> js_get t k = Undefined.
Proof.
  unfold js_get. intros -> Hk. by rewrite bool_decide_eq_false_2.
Qed.

(** ** Host maps *)

Lemma map_set_not_nil host address (m : HostMap) : map_set host address m <> [].
Proof. destruct m as [|[h a] m]; simpl; [done|]. by case_decide. Qed.

Lemma map_has_not_nil host (m : HostMap) : map_has host m = true -> m <> [].
Proof.
  unfold map_has. intros H%bool_decide_eq_true ->. by apply elem_of_nil in H.
Qed.

Lemma map_delete_length host (m : HostMap) :
  map_delete host m = [] <-> length (map_delete host m) = 0.
Proof. by destruct (map_delete host m). Qed.

(** ** The watch callback *)

Lemma watch_set_spec pattern host value s :
  let s' := (watch_set pattern host value s).1 in
  (s' = s
   /\ (js_get (patterns s) pattern = Inherited
       \/ map_has host (live_hosts s pattern) = true))
  \/ (patterns s'
      = <[pattern := map_set host value (live_hosts s pattern)]> (patterns s)
      /\ gloBloom s'
         = match sonic pattern with
           | Some p => index_add p tt (gloBloom s)
           | None => gloBloom s
           end).
Proof.
  unfold watch_set, live_hosts.
  destruct (js_get (patterns s) pattern) as [hosts| |] eqn:Hg; simpl.
  - rewrite Hg. apply js_get_Own in Hg. rewrite Hg. simpl.
    destruct (map_has host hosts); [left; by auto|right].
    by destruct (sonic pattern).
  - rewrite Hg. left. by auto.
  - assert (patterns s !! pattern = None) as Hn
        by (apply js_get_lookup_None; by left).
    assert (js_get (<[pattern := []]> (patterns s)) pattern = Own []) as ->
        by apply js_get_Own, lookup_insert_eq.
    rewrite Hn. simpl. right.
    destruct (sonic pattern); simpl; by rewrite insert_insert_eq.
Qed.

Lemma watch_removal_spec pattern host s :
  let s' := (watch_removal pattern host s).1 in
  s' = s
  \/ (exists hosts,
        patterns s !! pattern = Some hosts
        /\ map_has host hosts = true
        /\ patterns s' = <[pattern := map_delete host hosts]> (patterns s)
        /\ gloBloom s'
           = match map_delete host hosts, sonic pattern with
             | [], Some p => index_remove p (gloBloom s)
             | _, _ => gloBloom s
             end).
Proof.
  unfold watch_removal.
  destruct (js_get (patterns s) pattern) as [hosts| |] eqn:Hg; simpl;
    [|by left..].
  apply js_get_Own in Hg.
  destruct (map_has host hosts) eqn:Hh; [|by left].
  right. exists hosts. split; [done|]. split; [done|].
  destruct (map_delete host hosts) as [|x l] eqn:Hd; simpl.
  - by destruct (sonic pattern).
  - done.
Qed.

Section Directory.
Context (K : string -> Prop) (K_unambiguous : unambiguous K).

Lemma watch_set_inv pattern host value s :
  K pattern -> directory_inv K s ->
  directory_inv K (watch_set pattern host value s).1.
Proof.
  intros Hc Hinv.
  destruct (watch_set_spec pattern host value s) as [[-> _]|[Hp Hg]]; [done|].
  intros k p Hk Hs. unfold indexed, live_hosts. rewrite Hp.
  destruct (decide (k = pattern)) as [->|Hne].
  - rewrite Hg, Hs, lookup_insert_eq, elem_of_index_add. simpl. split.
    + intros _. apply map_set_not_nil.
    + intros _. by left.
  - rewrite lookup_insert_ne by done.
    destruct (sonic pattern) as [p0|] eqn:Hs0; rewrite Hg;
      [|by apply (Hinv k p)].
    rewrite elem_of_index_add. split.
    + intros [->|Hin]; [|by apply (Hinv k p)].
      destruct Hne. by apply (K_unambiguous k pattern p0).
    + intros Hl. right. by apply (Hinv k p).
Qed.

Lemma watch_removal_inv pattern host s :
  K pattern -> directory_inv K s ->
  directory_inv K (watch_removal pattern host s).1.
Proof.
  intros Hc Hinv.
  destruct (watch_removal_spec pattern host s)
    as [->|(hosts & Hl & Hh & Hp & Hg)]; [done|].
  intros k p Hk Hs. unfold indexed, live_hosts. rewrite Hp, Hg.
  destruct (decide (k = pattern)) as [->|Hne].
  - rewrite lookup_insert_eq, Hs. simpl.
    destruct (map_delete host hosts) as [|x l].
    + rewrite elem_of_index_remove. split; [by intros [Habs _] | done].
    + split; [done|]. intros _.
      apply (Hinv pattern p Hc Hs). unfold live_hosts. rewrite Hl. simpl.
      by eapply map_has_not_nil.
  - rewrite lookup_insert_ne by done.
    destruct (map_delete host hosts) as [|x l]; [|by apply (Hinv k p)].
    destruct (sonic pattern) as [p0|] eqn:Hs0; [|by apply (Hinv k p)].
    assert (p <> p0) as Hpne.
    { intros ->. destruct Hne. by apply (K_unambiguous k pattern p0). }
    rewrite elem_of_index_remove. specialize (Hinv k p Hk Hs).
    unfold indexed, live_hosts in Hinv. tauto.
Qed.

Lemma watch_change_inv action key value s :
  segment_in K (EvWatch action key value) -> directory_inv K s ->
  directory_inv K (watch_change action key value s).1.
Proof.
  simpl. intros Hc Hinv. unfold watch_change.
  destruct (keydx_exec key) as [[pattern host]|] eqn:Hk; [|done].
  specialize (Hc pattern host eq_refl).
  destruct (negb (nonempty pattern) || negb (nonempty host)); [done|].
  destruct (is_removal action).
  - pose proof (watch_removal_inv pattern host s Hc Hinv) as H1.
    destruct (watch_removal pattern host s) as [s1 [|e]]; simpl in *; [|done].
    case_bool_decide; [|done]. by apply watch_set_inv.
  - case_bool_decide; [|done]. by apply watch_set_inv.
Qed.

(** The other callbacks leave the directory alone. *)

Lemma send_directory now msg tx s :
  patterns (send now msg tx s).1 = patterns s
  /\ gloBloom (send now msg tx s).1 = gloBloom s.
Proof. unfold send, new_promise. repeat case_match; done. Qed.

Lemma reply_directory m err msg s :
  patterns (reply m err msg s).1 = patterns s
  /\ gloBloom (reply m err msg s).1 = gloBloom s.
Proof. unfold reply. repeat case_match; done. Qed.

Lemma on_message_directory m msg called s :
  patterns (on_message m msg called s).1 = patterns s
  /\ gloBloom (on_message m msg called s).1 = gloBloom s.
Proof.
  unfold on_message. repeat case_match; try done; apply reply_directory.
Qed.

Lemma handler_done_directory m r s :
  patterns (handler_done m r s) = patterns s
  /\ gloBloom (handler_done m r s) = gloBloom s.
Proof.
  unfold handler_done. destruct r as [v|e]; [|apply reply_directory].
  pose proof (reply_directory m None v s) as [H1 H2].
  destruct (reply m None v s) as [s1 [|e]]; simpl in *; [done|].
  destruct (reply_directory m (Some "TypeError") [] s1) as [-> ->]. done.
Qed.

Lemma step_inv s ev :
  segment_in K ev -> directory_inv K s -> directory_inv K (step s ev).
Proof.
  intros Hc Hinv.
  assert (forall s', patterns s' = patterns s /\ gloBloom s' = gloBloom s ->
                     directory_inv K s') as Hsame.
  { intros s' [Hp Hg] k p Hk Hs. unfold indexed, live_hosts.
    rewrite Hp, Hg. by apply Hinv. }
  destruct ev as [action key value|now msg tx|m msg called|m r|now]; simpl.
  - by apply watch_change_inv.
  - apply Hsame, send_directory.
  - apply Hsame, on_message_directory.
  - apply Hsame, handler_done_directory.
  - by apply Hsame.
Qed.

Lemma run_inv evs s :
  Forall (segment_in K) evs -> directory_inv K s -> directory_inv K (run evs s).
Proof.
  unfold run. intros Hall. revert s.
  induction Hall as [|ev evs Hev Hall IH]; intros s Hinv; simpl; [done|].
  apply IH. by apply step_inv.
Qed.

Lemma boot_inv prefix address idx : directory_inv K (boot prefix address idx).
Proof.
  intros k p _ _. unfold indexed, live_hosts. simpl.
  rewrite lookup_empty. simpl. split; [|done].
  intros H. by apply elem_of_nil in H.
Qed.

End Directory.

(** Canonical segments, those [instance.on] produces and
    [updateServiceDirectory] publishes, are unambiguous. *)
Lemma canonical_unambiguous : unambiguous canonical.
Proof. intros k1 k2 p H1 H2 Hs1 Hs2. by apply (canonical_inj k1 k2 p). Qed.

Lemma sonic_own k p : sonic k = Some p -> k ∉ object_prototype_keys.
Proof.
  intros Hs Hin. unfold object_prototype_keys in Hin.
  repeat (apply elem_of_cons in Hin as [->|Hin]; [by vm_compute in Hs|]).
  by apply elem_of_nil in Hin.
Qed.

(** Removing the last host of a pattern: the index entry goes and the
    callback throws. *)
Lemma watch_removal_last_host pattern host address s p :
  patterns s !! pattern = Some [(host, address)] ->
  sonic pattern = Some p ->
  watch_removal pattern host s
  = (set_gloBloom (index_remove p (gloBloom s))
       (set_patterns (<[pattern := []]> (patterns s)) s),
     Throws TypeError).
Proof.
  intros Hp Hs. unfold watch_removal.
  apply js_get_Own in Hp. rewrite Hp.
  assert (map_has host [(host, address)] = true) as ->
      by apply bool_decide_eq_true_2, list_elem_of_here.
  assert (map_delete host [(host, address)] = []) as ->.
  { unfold map_delete. rewrite filter_cons_False; [done|]. simpl. by intros H. }
  simpl. by rewrite Hs.
Qed.

(** ** [send] *)

Lemma nonempty_stringify o : nonempty (stringify o) = true.
Proof. reflexivity. Qed.

Lemma new_promise_lookup o s :
  promises (new_promise o s).1 !! (new_promise o s).2 = Some o.
Proof. unfold new_promise. simpl. by apply list_lookup_middle. Qed.

Lemma js_get_patterns_stringify s o :
  js_get (patterns s) (stringify o)
  = match patterns s !! stringify o with
    | Some hosts => Own hosts
    | None => Undefined
    end.
Proof.
  unfold js_get. destruct (patterns s !! stringify o); [done|].
  rewrite bool_decide_eq_false_2; [done | apply stringify_own].
Qed.

(** A send whose promise stays pending found its host under the
    re-serialised form of the matched pattern. *)
Lemma send_pending_route now msg tx s :
  promises (send now msg tx s).1 !! (send now msg tx s).2 = Some None ->
  exists p u host address rest,
    index_lookup msg (gloBloom s) = Some (p, u)
    /\ patterns s !! stringify p = Some ((host, address) :: rest).
Proof.
  assert (forall (ps : list (option settlement)) e,
            (ps ++ [Some e]) !! length ps = Some None -> False) as Hrej.
  { intros ps e. by rewrite list_lookup_middle. }
  unfold send, new_promise. simpl.
  destruct (index_lookup msg (gloBloom s)) as [[p u]|] eqn:Hl; simpl;
    [|by intros ?%Hrej].
  rewrite js_get_patterns_stringify.
  destruct (patterns s !! stringify p) as [[|[host address] rest]|] eqn:Hp;
    simpl; try (by intros ?%Hrej).
  intros _. by exists p, u, host, address, rest.
Qed.

(** ** Ids *)

Lemma replace_slash_app a b :
  replace_slash (a +:+ b) = replace_slash a +:+ replace_slash b.
Proof. induction a as [|c a IH]; simpl; [done|]. by rewrite IH. Qed.

Lemma replace_slash_digits s :
  all_chars is_digit s = true -> replace_slash s = s.
Proof.
  induction s as [|c s IH]; simpl; [done|].
  intros [Hc Hs]%andb_prop. rewrite IH by done.
  case_decide as Hslash; [|done]. by subst.
Qed.

Lemma request_id_unfold prefix n :
  request_id prefix n
  = replace_slash prefix +:+ String ":" (NilZero.string_of_uint (N.to_uint n)).
Proof.
  unfold request_id, sid. rewrite replace_slash_app.
  change ("/" +:+ ?x) with (String "/" x). simpl.
  by rewrite (replace_slash_digits (NilZero.string_of_uint (N.to_uint n)))
    by apply (proj1 (show_num_digits n)).
Qed.

Lemma request_id_inj prefix n m :
  request_id prefix n = request_id prefix m -> n = m.
Proof.
  rewrite !request_id_unfold. intros H%(inj _). injection H as H.
  apply (f_equal NilZero.uint_of_string) in H.
  rewrite !NilZero.usu in H by apply to_uint_not_nil.
  injection H as H. apply (f_equal N.of_uint) in H.
  by rewrite !DecimalN.Unsigned.of_to in H.
Qed.

Lemma request_id_nonempty prefix n : nonempty (request_id prefix n) = true.
Proof. rewrite request_id_unfold. by destruct (replace_slash prefix). Qed.

Lemma request_id_own prefix n : request_id prefix n ∉ object_prototype_keys.
Proof.
  intros Hin.
  assert (free ":" (request_id prefix n) = false) as Hf.
  { rewrite request_id_unfold. unfold free. rewrite all_chars_app. simpl.
    apply andb_false_r. }
  assert (Forall (fun x => free ":" x = true) object_prototype_keys) as Hall
      by (repeat constructor).
  rewrite Forall_forall in Hall. apply Hall in Hin. congruence.
Qed.

Lemma genId_request_id s : genId s = request_id (sidPrefix s) (sidCount s).
Proof. reflexivity. Qed.

(** ** Promises *)

Lemma settle_length p o ps : length (settle p o ps) = length ps.
Proof.
  unfold settle. destruct (ps !! p) as [[|]|]; [done| |done].
  apply length_insert.
Qed.

Lemma settle_lookup p o ps q :
  settle p o ps !! q
  = if decide (q = p) then
      match ps !! q with Some None => Some (Some o) | x => x end
    else ps !! q.
Proof.
  unfold settle. destruct (decide (q = p)) as [->|Hne].
  - destruct (ps !! p) as [[|]|] eqn:Hp; [done| |done].
    apply list_lookup_insert_eq. by eapply lookup_lt_Some.
  - destruct (ps !! p) as [[|]|]; [done| |done].
    by apply list_lookup_insert_ne.
Qed.

Lemma settle_settled p o ps q o' :
  ps !! q = Some (Some o') -> settle p o ps !! q = Some (Some o').
Proof. intros H. rewrite settle_lookup, H. by case_decide. Qed.

Lemma settle_pending_inv p o ps q :
  settle p o ps !! q = Some None -> ps !! q = Some None /\ q <> p.
Proof.
  rewrite settle_lookup. case_decide as Hq; [|done].
  by destruct (ps !! q) as [[|]|].
Qed.

Section Sweep.
Context (o : settlement).
Implicit Types (gone : list (string * request)) (ps : list (option settlement)).

Lemma settle_all_length gone ps : length (settle_all o gone ps) = length ps.
Proof.
  induction gone as [|e gone IH]; simpl; [done|].
  by rewrite settle_length.
Qed.

Lemma settle_all_settled gone ps q o' :
  ps !! q = Some (Some o') -> settle_all o gone ps !! q = Some (Some o').
Proof.
  intros H. induction gone as [|e gone IH]; simpl; [done|].
  by apply settle_settled.
Qed.

Lemma settle_all_hit gone ps e :
  e ∈ gone -> ps !! promise e.2 = Some None ->
  settle_all o gone ps !! promise e.2 = Some (Some o).
Proof.
  intros Hin Hp. induction gone as [|x gone IH]; simpl.
  - by apply elem_of_nil in Hin.
  - rewrite settle_lookup. apply elem_of_cons in Hin as [<-|Hin].
    + rewrite decide_True by done.
      assert (is_Some (settle_all o gone ps !! promise e.2)) as [y Hy].
      { apply lookup_lt_is_Some. rewrite settle_all_length.
        by eapply lookup_lt_Some. }
      rewrite Hy. destruct y as [y|]; [|done].
      clear IH. revert y Hy.
      induction gone as [|z gone IHg]; simpl; intros y Hy; [congruence|].
      rewrite settle_lookup in Hy. case_decide.
      * destruct (settle_all o gone ps !! promise e.2) as [[w|]|] eqn:Hw;
          [by eapply IHg | congruence | done].
      * by eapply IHg.
    + rewrite (IH Hin). by case_decide.
Qed.

Lemma settle_all_pending_inv gone ps q :
  settle_all o gone ps !! q = Some None ->
  ps !! q = Some None /\ forall e, e ∈ gone -> promise e.2 <> q.
Proof.
  induction gone as [|x gone IH]; simpl.
  - intros H. split; [done|]. intros e He. by apply elem_of_nil in He.
  - intros [H Hne]%settle_pending_inv. destruct (IH H) as [Hp Hall].
    split; [done|]. intros e [->|He]%elem_of_cons; [done | by apply Hall].
Qed.

Lemma settle_all_miss gone ps q :
  (forall e, e ∈ gone -> promise e.2 <> q) -> settle_all o gone ps !! q = ps !! q.
Proof.
  induction gone as [|x gone IH]; simpl; [done|]. intros Hall.
  rewrite settle_lookup, decide_False.
  - apply IH. intros e He. apply Hall. by apply list_elem_of_further.
  - intros Heq. by apply (Hall x (list_elem_of_here _ _)).
Qed.

End Sweep.

(** ** Effects of the callbacks on the request table *)

Lemma watch_set_requests pattern host address s :
  same_requests s (watch_set pattern host address s).1.
Proof. unfold watch_set, same_requests. repeat case_match; done. Qed.

Lemma watch_removal_requests pattern host s :
  same_requests s (watch_removal pattern host s).1.
Proof. unfold watch_removal, same_requests. repeat case_match; done. Qed.

Lemma same_requests_trans s1 s2 s3 :
  same_requests s1 s2 -> same_requests s2 s3 -> same_requests s1 s3.
Proof. unfold same_requests. intros (?&?&?&?) (?&?&?&?). split_and!; congruence. Qed.

Lemma same_requests_refl s : same_requests s s.
Proof. by unfold same_requests. Qed.

Lemma watch_change_requests action key address s :
  same_requests s (watch_change action key address s).1.
Proof.
  unfold watch_change.
  destruct (keydx_exec key) as [[pattern host]|]; [|apply same_requests_refl].
  destruct (negb (nonempty pattern) || negb (nonempty host));
    [apply same_requests_refl|].
  destruct (is_removal action).
  - pose proof (watch_removal_requests pattern host s) as H1.
    destruct (watch_removal pattern host s) as [s1 [|e]]; simpl in *; [|done].
    case_bool_decide; [|done].
    eapply same_requests_trans; [exact H1|apply watch_set_requests].
  - case_bool_decide; [apply watch_set_requests | apply same_requests_refl].
Qed.

Lemma reply_requests m err msg s : same_requests s (reply m err msg s).1.
Proof. unfold reply, same_requests. repeat case_match; done. Qed.

Lemma handler_done_requests m r s : same_requests s (handler_done m r s).
Proof.
  unfold handler_done. destruct r as [v|e]; [|apply reply_requests].
  pose proof (reply_requests m None v s) as H1.
  destruct (reply m None v s) as [s1 [|e]]; simpl in *; [done|].
  eapply same_requests_trans; [exact H1 | apply reply_requests].
Qed.

Lemma on_message_spec m msg called s :
  let s' := (on_message m msg called s).1 in
  same_requests s s'
  \/ (exists rid r,
        mode m = Some "reply" /\ requestId m = Some rid
        /\ requests s !! rid = Some r
        /\ requests s' = delete rid (requests s)
        /\ promises s' = settle (promise r) (reply_outcome m msg) (promises s)
        /\ sidPrefix s' = sidPrefix s /\ sidCount s' = sidCount s).
Proof.
  unfold on_message. case_bool_decide as Hmode.
  - destruct (requestId m) as [rid|] eqn:Hrid; simpl;
      [|left; apply same_requests_refl].
    destruct (nonempty rid); [|left; apply same_requests_refl].
    destruct (js_get (requests s) rid) as [r| |] eqn:Hg; simpl;
      [|left; apply same_requests_refl..].
    apply js_get_Own in Hg. right. by exists rid, r.
  - left. destruct (index_lookup msg (bloom s));
      [apply same_requests_refl | apply reply_requests].
Qed.

Lemma send_spec now msg tx s :
  let r := send now msg tx s in
  r.2 = length (promises s)
  /\ sidPrefix r.1 = sidPrefix s
  /\ sidCount r.1 = N.succ (sidCount s)
  /\ ((requests r.1 = requests s
       /\ exists e, promises r.1 = promises s ++ [Some (Rejected e)]
                    /\ forall x, e <> Thrown x)
      \/ (requests r.1
          = <[genId s := Request (length (promises s)) (now + default_timeout)]>
              (requests s)
          /\ exists o, promises r.1 = promises s ++ [o]
                       /\ (o = None \/ exists e, o = Some (Rejected e)))).
Proof.
  unfold send, new_promise. simpl.
  repeat case_match; simpl; split_and!; try done;
    first [ left; split; [done|]; eexists; split; [done|]; done
          | right; split; [done|]; eexists; split; [done|]; eauto ].
Qed.

(** ** The table invariant *)

Lemma boot_requests_inv prefix address idx :
  requests_inv (boot prefix address idx).
Proof.
  unfold requests_inv, pending. simpl. split_and!.
  - intros rid r H. by rewrite lookup_empty in H.
  - intros rid1 rid2 r1 r2 H. by rewrite lookup_empty in H.
  - intros p H. by rewrite lookup_nil in H.
Qed.

Lemma same_requests_inv s s' :
  same_requests s s' -> requests_inv s -> requests_inv s'.
Proof.
  unfold requests_inv, pending. intros (-> & -> & -> & ->). done.
Qed.

Lemma settle_delete_inv s s' rid r o :
  requests_inv s ->
  requests s !! rid = Some r ->
  requests s' = delete rid (requests s) ->
  promises s' = settle (promise r) o (promises s) ->
  sidPrefix s' = sidPrefix s -> sidCount s' = sidCount s ->
  requests_inv s'.
Proof.
  unfold requests_inv, pending.
  intros (H1 & H2 & H3) Hr -> -> -> ->. split_and!.
  - intros rid0 r0 [Hne H0]%lookup_delete_Some. rewrite settle_length. eauto.
  - intros rid1 rid2 r1 r2 [_ Ha]%lookup_delete_Some [_ Hb]%lookup_delete_Some.
    by eapply H2.
  - intros p [Hp Hne]%settle_pending_inv.
    destruct (H3 p Hp) as (rid0 & r0 & H0 & <-).
    exists rid0, r0. split; [|done]. apply lookup_delete_Some. split; [|done].
    intros <-. congruence.
Qed.

Lemma send_inv now msg tx s :
  requests_inv s -> requests_inv (send now msg tx s).1.
Proof.
  intros (H1 & H2 & H3).
  destruct (send_spec now msg tx s)
    as (_ & Hpre & Hcnt & [[Hreq (e & Hps & _)]|[Hreq (o & Hps & Ho)]]);
    unfold requests_inv, pending; rewrite Hpre, Hcnt, Hreq, Hps.
  - split_and!.
    + intros rid r Hr. destruct (H1 rid r Hr) as (Hlt & n & Hn & ->).
      rewrite length_app. simpl. split; [lia|]. exists n. split; [lia|done].
    + done.
    + intros p [Hp|[Hp Hl]]%lookup_app_Some; [by apply H3|].
      destruct (p - length (promises s)); simpl in Hl; done.
  - assert (forall rid r, requests s !! rid = Some r -> rid <> genId s) as Hfresh.
    { intros rid r Hr ->. destruct (H1 _ _ Hr) as (_ & n & Hn & Hid).
      rewrite genId_request_id in Hid. apply request_id_inj in Hid. lia. }
    split_and!.
    + intros rid r [[<- <-]|[Hne Hr]]%lookup_insert_Some; rewrite length_app; simpl.
      * split; [lia|]. exists (sidCount s). split; [lia|done].
      * destruct (H1 rid r Hr) as (Hlt & n & Hn & ->).
        split; [lia|]. exists n. split; [lia|done].
    + intros rid1 rid2 r1 r2
        [[<- <-]|[Hne1 Hr1]]%lookup_insert_Some
        [[<- <-]|[Hne2 Hr2]]%lookup_insert_Some; simpl; try done.
      * intros Heq. destruct (H1 _ _ Hr2) as [Hlt _]. lia.
      * intros Heq. destruct (H1 _ _ Hr1) as [Hlt _]. lia.
      * by eapply H2.
    + intros p [Hp|[Hp Hl]]%lookup_app_Some.
      * destruct (H3 p Hp) as (rid & r & Hr & <-). exists rid, r.
        split; [|done]. rewrite lookup_insert_ne; [done|].
        intros Heq. by eapply Hfresh.
      * exists (genId s), (Request (length (promises s)) (now + default_timeout)).
        rewrite lookup_insert_eq. split; [done|]. simpl.
        destruct (p - length (promises s)) eqn:Hd; simpl in Hl; [lia|done].
Qed.

Lemma sweep_inv now s :
  requests_inv s -> requests_inv (fireRequestTimeouts now s).1.
Proof.
  unfold requests_inv, pending. intros (H1 & H2 & H3). simpl. split_and!.
  - intros rid r [Hr _]%map_lookup_filter_Some. rewrite settle_all_length. eauto.
  - intros rid1 rid2 r1 r2 [Ha _]%map_lookup_filter_Some
      [Hb _]%map_lookup_filter_Some. by eapply H2.
  - intros p [Hp Hmiss]%settle_all_pending_inv.
    destruct (H3 p Hp) as (rid & r & Hr & <-). exists rid, r.
    split; [|done]. apply map_lookup_filter_Some. split; [done|]. simpl.
    destruct (expired now r) eqn:He; [|done].
    destruct (Hmiss (rid, r)); [|done].
    apply list_elem_of_filter. split; [done|]. by apply elem_of_map_to_list.
Qed.

Lemma step_requests_inv s ev : requests_inv s -> requests_inv (step s ev).
Proof.
  intros Hinv. destruct ev as [action key value|now msg tx|m msg called|m r|now]; simpl.
  - eapply same_requests_inv; [apply watch_change_requests | done].
  - by apply send_inv.
  - destruct (on_message_spec m msg called s)
      as [Hsame|(rid & r & _ & _ & Hr & Hd & Hp & Hpre & Hcnt)].
    + by eapply same_requests_inv.
    + by eapply settle_delete_inv.
  - eapply same_requests_inv; [apply handler_done_requests | done].
  - by apply sweep_inv.
Qed.

Lemma run_requests_inv evs s : requests_inv s -> requests_inv (run evs s).
Proof.
  unfold run. revert s. induction evs as [|ev evs IH]; intros s Hinv; simpl;
    [done|]. by apply IH, step_requests_inv.
Qed.

Lemma step_sidPrefix s ev : sidPrefix (step s ev) = sidPrefix s.
Proof.
  destruct ev as [action key value|now msg tx|m msg called|m r|now]; simpl.
  - apply watch_change_requests.
  - apply send_spec.
  - destruct (on_message_spec m msg called s) as [Hsame|(rid & r & H)];
      [apply Hsame | apply H].
  - apply handler_done_requests.
  - done.
Qed.

(** A settled promise stays as it is. *)
Lemma step_settled s ev p o :
  settled_with s p o -> settled_with (step s ev) p o.
Proof.
  unfold settled_with. intros Hp.
  destruct ev as [action key value|now msg tx|m msg called|m r|now]; simpl.
  - destruct (watch_change_requests action key value s) as (_ & -> & _). done.
  - destruct (send_spec now msg tx s)
      as (_ & _ & _ & [[_ (e & -> & _)]|[_ (o' & -> & _)]]);
      rewrite lookup_app_l; try done; by eapply lookup_lt_Some.
  - destruct (on_message_spec m msg called s)
      as [(_ & -> & _)|(rid & r & _ & _ & _ & _ & -> & _)]; [done|].
    by apply settle_settled.
  - destruct (handler_done_requests m r s) as (_ & -> & _). done.
  - by apply settle_all_settled.
Qed.

Lemma run_settled evs s p o :
  settled_with s p o -> settled_with (run evs s) p o.
Proof.
  unfold run. revert s. induction evs as [|ev evs IH]; intros s H; simpl;
    [done|]. by apply IH, step_settled.
Qed.

Lemma run_sidPrefix evs s : sidPrefix (run evs s) = sidPrefix s.
Proof.
  unfold run. revert s. induction evs as [|ev evs IH]; intros s; simpl; [done|].
  by rewrite IH, step_sidPrefix.
Qed.

(** A reply frame for an entry of the table. *)
Lemma on_message_reply_own rid r m msg called s :
  requests s !! rid = Some r -> nonempty rid = true ->
  requestId m = Some rid -> mode m = Some "reply" ->
  let s' := (on_message m msg called s).1 in
  requests s' = delete rid (requests s)
  /\ promises s' = settle (promise r) (reply_outcome m msg) (promises s)
  /\ (on_message m msg called s).2 = Returns.
Proof.
  intros Hr Hne Hrid Hmode. unfold on_message.
  rewrite Hmode, Hrid. simpl. rewrite Hne.
  apply js_get_Own in Hr. by rewrite Hr.
Qed.

(** A reply frame for an id that is neither in the table nor inherited. *)
Lemma on_message_reply_absent rid m msg called s :
  requests s !! rid = None -> rid ∉ object_prototype_keys ->
  requestId m = Some rid -> mode m = Some "reply" ->
  on_message m msg called s = (s, Returns).
Proof.
  intros Hr Hown Hrid Hmode. unfold on_message.
  rewrite Hmode, Hrid. simpl.
  rewrite (js_get_absent _ _ Hr Hown). by destruct (nonempty rid).
Qed.

(** ** [fixupUrl] *)

Lemma string_app_assoc (a b c : string) : (a +:+ b) +:+ c = a +:+ (b +:+ c).
Proof.
  induction a as [|x a IH]; [reflexivity|].
  change (String x ((a +:+ b) +:+ c) = String x (a +:+ (b +:+ c))).
  by rewrite IH.
Qed.

Lemma string_app_nil_r (a : string) : a +:+ "" = a.
Proof.
  induction a as [|x a IH]; [reflexivity|].
  change (String x (a +:+ "") = String x a). by rewrite IH.
Qed.

Lemma take_while_app f a tail :
  all_chars f a = true -> stops f tail = true ->
  take_while f (a +:+ tail) = (a, tail).
Proof.
  intros Ha Ht. induction a as [|c a IH]; simpl in *.
  - destruct tail as [|c tail]; simpl in *; [done|].
    by apply negb_true_iff in Ht as ->.
  - apply andb_prop in Ha as [-> Ha]. by rewrite IH.
Qed.

Lemma split_last_colon_free a : free ":" a = true -> split_last_colon a = None.
Proof.
  unfold free. induction a as [|c a IH]; simpl; [done|].
  intros [Hc Ha]%andb_prop. rewrite IH by done.
  apply bool_decide_eq_true in Hc. by rewrite decide_False.
Qed.

Lemma split_last_colon_app b a :
  free ":" a = true -> split_last_colon (b +:+ String ":" a) = Some (b, a).
Proof.
  intros Ha. induction b as [|c b IH]; simpl.
  - by rewrite split_last_colon_free.
  - by rewrite IH.
Qed.

Lemma host_match_at_colon_free c s :
  c <> ":"%char -> host_match_at (String c s) = None.
Proof. intros Hc. unfold host_match_at. simpl. by rewrite decide_False. Qed.

Lemma host_match_skip scheme s m a :
  free ":" scheme = true ->
  host_match_at s = Some (m, a) ->
  host_match (scheme +:+ s) = Some (scheme, m, a).
Proof.
  unfold free. intros Hs Hm. induction scheme as [|c scheme IH].
  - change ("" +:+ s) with s. destruct s; cbn [host_match]; by rewrite Hm.
  - simpl in Hs. apply andb_prop in Hs as [Hc Hs].
    apply bool_decide_eq_true in Hc.
    change (String c scheme +:+ s) with (String c (scheme +:+ s)).
    cbn [host_match]. rewrite host_match_at_colon_free by done.
    by rewrite IH.
Qed.

Lemma host_match_slash_free s : free "/" s = true -> host_match s = None.
Proof.
  unfold free. induction s as [|c s IH]; [done|].
  simpl. intros [Hc Hs]%andb_prop. apply bool_decide_eq_true in Hc.
  rewrite IH by done.
  unfold host_match_at. simpl.
  destruct (decide (":"%char = c)) as [<-|]; [|done].
  destruct s as [|d s]; [done|]. simpl in Hs. apply andb_prop in Hs as [Hd _].
  apply bool_decide_eq_true in Hd. simpl. by rewrite decide_False.
Qed.

Lemma expand_plain m b a t : free "$" t = true -> expand m b a t = t.
Proof.
  unfold free. induction t as [|c t IH]; simpl; [done|].
  intros [Hc Ht]%andb_prop. apply bool_decide_eq_true in Hc.
  rewrite decide_False by done. by rewrite IH.
Qed.

Lemma host_match_at_host c host port tail :
  all_chars host_class (String c host) = true ->
  all_chars host_class port = true -> free ":" port = true ->
  stops host_class tail = true ->
  host_match_at ("://" +:+ String c host +:+ ":" +:+ port +:+ tail)
  = Some ("://" +:+ String c host +:+ ":", port +:+ tail).
Proof.
  intros Hh Hp Hf Ht. unfold host_match_at.
  change (strip_prefix "://" ("://" +:+ ?x)) with (Some x).
  assert (String c host +:+ ":" +:+ port +:+ tail
          = (String c host +:+ ":" +:+ port) +:+ tail) as ->.
  { by rewrite !string_app_assoc. }
  rewrite take_while_app; [|by rewrite !all_chars_app, Hh, Hp|done].
  change (String c host +:+ ":" +:+ port)
    with (String c (host +:+ String ":" port)).
  cbv beta iota. by rewrite split_last_colon_app.
Qed.

(** ** The published key *)

Lemma take_class_app a tail :
  all_chars keydx_class a = true -> stops keydx_class tail = true ->
  take_class (a +:+ tail) = (a, tail).
Proof.
  intros Ha Ht. induction a as [|c a IH]; simpl in *.
  - destruct tail as [|c tail]; simpl in *; [done|].
    by apply negb_true_iff in Ht as ->.
  - apply andb_prop in Ha as [-> Ha]. by rewrite IH.
Qed.

Lemma keydx_at_published pattern id :
  nonempty pattern = true -> all_chars keydx_class pattern = true ->
  nonempty id = true -> all_chars keydx_class id = true ->
  keydx_at (publish_key pattern id) = Some (pattern, id).
Proof.
  intros Hn Hp Hni Hi. unfold keydx_at, publish_key, eroot.
  change (strip_prefix ("/services" +:+ "/")
            ("/services" +:+ "/" +:+ ?x)) with (Some x).
  change ("/" +:+ id) with (String "/" id).
  cbv beta iota. rewrite take_class_app by done.
  pose proof (take_class_app id "" Hi eq_refl) as Hid.
  rewrite string_app_nil_r in Hid. rewrite Hid. by rewrite Hn, Hni.
Qed.

Lemma base64_class c : base64_char c = true -> c <> "/"%char -> keydx_class c = true.
Proof.
  unfold base64_char, keydx_class. intros H Hne.
  destruct (is_alpha c); [done|]. destruct (is_digit c); [done|].
  simpl in *. apply orb_prop in H as [H|H].
  - rewrite H. by rewrite !orb_true_r.
  - apply bool_decide_eq_true in H. done.
Qed.

Lemma replace_slash_class s :
  all_chars base64_char s = true -> all_chars keydx_class (replace_slash s) = true.
Proof.
  induction s as [|c s IH]; simpl; [done|].
  intros [Hc Hs]%andb_prop. rewrite IH by done.
  case_decide; [done|]. by rewrite base64_class.
Qed.

Lemma request_id_class prefix n :
  all_chars base64_char prefix = true ->
  all_chars keydx_class (request_id prefix n) = true.
Proof.
  intros Hp. rewrite request_id_unfold, all_chars_app. simpl.
  rewrite replace_slash_class by done. simpl.
  destruct (show_num_digits n) as [Hd _]. revert Hd.
  apply all_chars_impl. intros c Hc. unfold keydx_class. rewrite Hc.
  by rewrite orb_true_r.
Qed.

(** ** The publish cycle *)

Lemma updateServiceDirectory_post_init hasPostInit results called :
  let r := updateServiceDirectory hasPostInit results called in
  (called = true -> r.1 = true /\ filter (fun t => is_post_init t = true) r.2 = [])
  /\ length (filter (fun t => is_post_init t = true) r.2) <= 1
  /\ (filter (fun t => is_post_init t = true) r.2 <> [] -> r.1 = true).
Proof.
  unfold updateServiceDirectory.
  destruct (existsb is_err results); simpl.
  - split_and!; [by intros ->| lia | done].
  - destruct (forallb is_ok results); simpl.
    + destruct called, hasPostInit; simpl; split_and!; try done; lia.
    + split_and!; [by intros ->| lia | done].
Qed.

Lemma keydx_exec_at key r : keydx_at key = Some r -> keydx_exec key = Some r.
Proof. intros H. destruct key; cbn [keydx_exec]; by rewrite H. Qed.

Lemma all_ok_no_err results :
  forallb is_ok results = true -> existsb is_err results = false.
Proof.
  induction results as [|r results IH]; simpl; [done|].
  intros [Hr Hrs]%andb_prop. rewrite IH by done. by destruct r.
Qed.

Lemma publish_cycles_called hasPostInit cycles :
  filter (fun t => is_post_init t = true)
         (publish_cycles hasPostInit cycles true).2 = []
  /\ (publish_cycles hasPostInit cycles true).1 = true.
Proof.
  induction cycles as [|results rest IH]; simpl; [done|].
  destruct (updateServiceDirectory_post_init hasPostInit results true)
    as (Hc & _ & _).
  destruct (Hc eq_refl) as [H1 H2].
  destruct (updateServiceDirectory hasPostInit results true) as [c t].
  simpl in *. subst c. destruct (existsb is_publish t); simpl; [|done].
  destruct (publish_cycles hasPostInit rest true) as [c' t']. simpl in *.
  destruct IH as [IH1 IH2]. by rewrite filter_app, H2, IH1.
Qed.

(** Cycles with a failing call only re-arm the publish timer and leave
    [calledUpdateYet] alone. *)
Lemma publish_cycles_failed hasPostInit failed rest called :
  Forall (fun results => existsb is_err results = true) failed ->
  publish_cycles hasPostInit (failed ++ rest) called
  = ((publish_cycles hasPostInit rest called).1,
     replicate (length failed) (PublishTimer 5000)
     ++ (publish_cycles hasPostInit rest called).2).
Proof.
  intros Hfailed. induction Hfailed as [|results failed Hr _ IH]; simpl.
  - by destruct (publish_cycles hasPostInit rest called).
  - unfold updateServiceDirectory at 1. rewrite Hr. simpl. by rewrite IH.
Qed.

(** ** The socket table *)

Lemma pool_step_ok k w k' w' : pool_step k w k' w' -> pool_ok k w -> pool_ok k' w'.
Proof.
  induction 1 as [k w|k w a x op Hk Hop|k w a m msg Hk
                  |k1 w1 k2 w2 k3 w3 _ IH1 _ IH2]; [done| | |by auto].
  - intros [H1 H2]. split.
    + intros b. rewrite filter_app, length_app, H1.
      destruct (decide (a = b)) as [->|Hne].
      * rewrite Hk, lookup_insert_eq.
        rewrite filter_cons_True, filter_nil; [done|].
        destruct Hop as [->| ->]; simpl; by apply bool_decide_eq_true.
      * rewrite lookup_insert_ne by done.
        rewrite filter_cons_False, filter_nil; [simpl; lia|].
        destruct Hop as [->| ->]; simpl; rewrite bool_decide_eq_false_2; done.
    + intros b m msg [Hin|Hin]%elem_of_app.
      * apply lookup_insert_is_Some'. right. by eapply H2.
      * apply list_elem_of_singleton in Hin. by destruct Hop as [->| ->].
  - intros [H1 H2]. split.
    + intros b. rewrite filter_app, length_app, H1.
      rewrite filter_cons_False, filter_nil; [simpl; lia | done].
    + intros b m' msg' [Hin|Hin]%elem_of_app; [by eapply H2|].
      apply list_elem_of_singleton in Hin. by injection Hin as -> _ _.
Qed.

Lemma pool_step_grows k w k' w' :
  pool_step k w k' w' ->
  (forall a x, k !! a = Some x -> k' !! a = Some x)
  /\ exists ops, w' = w ++ ops.
Proof.
  induction 1 as [k w|k w a x op Hk Hop|k w a m msg Hk
                  |k1 w1 k2 w2 k3 w3 _ IH1 _ IH2].
  - split; [done|]. exists []. by rewrite app_nil_r.
  - split; [|by eexists]. intros b y Hb.
    rewrite lookup_insert_ne; [done|]. intros ->. congruence.
  - split; [done | by eexists].
  - destruct IH1 as [IH1 [o1 H1]], IH2 as [IH2 [o2 H2]].
    split; [by auto|]. exists (o1 ++ o2). by rewrite H2, H1, app_assoc.
Qed.

Lemma js_get_Undefined_None {A} (t : gmap string A) k :
  js_get t k = Undefined -> t !! k = None.
Proof. intros H. apply js_get_lookup_None. by left. Qed.

Lemma reply_pool m err msg s :
  pool_step (sockets s) (wire s)
            (sockets (reply m err msg s).1) (wire (reply m err msg s).1).
Proof.
  unfold reply.
  destruct (js_get (sockets s) (returnUrl m)) as [x| |] eqn:Hg; simpl.
  - rewrite Hg. apply js_get_Own in Hg.
    destruct (truthy err); simpl; by apply pool_send.
  - rewrite Hg. apply pool_same.
  - apply js_get_Undefined_None in Hg.
    assert (js_get (<[returnUrl m := PushBound]> (sockets s)) (returnUrl m)
            = Own PushBound) as -> by apply js_get_Own, lookup_insert_eq.
    destruct (truthy err); simpl;
      (eapply pool_trans; [apply pool_create; [done | by right]|]);
      apply pool_send; by rewrite lookup_insert_eq.
Qed.

Lemma send_pool now msg tx s :
  pool_step (sockets s) (wire s)
            (sockets (send now msg tx s).1) (wire (send now msg tx s).1).
Proof.
  unfold send, new_promise. simpl.
  destruct (index_lookup msg (gloBloom s)) as [[p u]|]; simpl;
    [|apply pool_same].
  destruct (js_get (patterns s) (stringify p)) as [[|[h a] rest]| |]; simpl;
    try apply pool_same.
  destruct (js_get (sockets s) a) as [x| |] eqn:Hg; simpl.
  - rewrite Hg. apply js_get_Own in Hg.
    destruct tx; simpl; [apply pool_same | by apply pool_send].
  - rewrite Hg. simpl. apply pool_same.
  - apply js_get_Undefined_None in Hg.
    assert (js_get (<[a := PushConnected]> (sockets s)) a = Own PushConnected)
      as -> by apply js_get_Own, lookup_insert_eq.
    destruct tx; simpl.
    + apply pool_create; [done | by left].
    + eapply pool_trans; [apply pool_create; [done | by left]|].
      apply pool_send. by rewrite lookup_insert_eq.
Qed.

Lemma watch_change_pool action key address s :
  sockets (watch_change action key address s).1 = sockets s
  /\ wire (watch_change action key address s).1 = wire s.
Proof.
  assert (forall p h v s0, sockets (watch_set p h v s0).1 = sockets s0
                           /\ wire (watch_set p h v s0).1 = wire s0) as Hset.
  { intros. unfold watch_set. repeat case_match; done. }
  assert (forall p h s0, sockets (watch_removal p h s0).1 = sockets s0
                         /\ wire (watch_removal p h s0).1 = wire s0) as Hrem.
  { intros. unfold watch_removal. repeat case_match; done. }
  unfold watch_change.
  destruct (keydx_exec key) as [[pattern host]|]; [|done].
  destruct (negb (nonempty pattern) || negb (nonempty host)); [done|].
  destruct (is_removal action).
  - pose proof (Hrem pattern host s) as [H1 H2].
    destruct (watch_removal pattern host s) as [s1 [|e]]; simpl in *; [|done].
    case_bool_decide; [|done].
    destruct (Hset pattern host address s1) as [-> ->]. done.
  - case_bool_decide; [apply Hset | done].
Qed.

Lemma on_message_pool m msg called s :
  pool_step (sockets s) (wire s)
            (sockets (on_message m msg called s).1) (wire (on_message m msg called s).1).
Proof.
  unfold on_message. case_bool_decide.
  - repeat case_match; simpl; apply pool_same.
  - destruct (index_lookup msg (bloom s)); [apply pool_same | apply reply_pool].
Qed.

Lemma handler_done_pool m r s :
  pool_step (sockets s) (wire s)
            (sockets (handler_done m r s)) (wire (handler_done m r s)).
Proof.
  unfold handler_done. destruct r as [v|e]; [|apply reply_pool].
  pose proof (reply_pool m None v s) as H1.
  destruct (reply m None v s) as [s1 [|e]]; simpl in *; [done|].
  eapply pool_trans; [exact H1 | apply reply_pool].
Qed.

Lemma step_pool s ev :
  pool_step (sockets s) (wire s) (sockets (step s ev)) (wire (step s ev)).
Proof.
  destruct ev as [action key value|now msg tx|m msg called|m r|now]; simpl.
  - destruct (watch_change_pool action key value s) as [-> ->]. apply pool_same.
  - apply send_pool.
  - apply on_message_pool.
  - apply handler_done_pool.
  - apply pool_same.
Qed.

Lemma run_pool evs s :
  pool_step (sockets s) (wire s) (sockets (run evs s)) (wire (run evs s)).
Proof.
  unfold run. revert s. induction evs as [|ev evs IH]; intros s; simpl.
  - apply pool_same.
  - eapply pool_trans; [apply step_pool | apply IH].
Qed.

(** ** A routed send, its reply and its timeout *)

Lemma send_pending_effect now msg tx s :
  let r := send now msg tx s in
  pending r.1 r.2 ->
  (exists address,
      last (wire r.1)
      = Some (OpSend address (Meta (Some (genId s)) (url s) None None) msg))
  /\ requests r.1 !! genId s = Some (Request r.2 (now + default_timeout))
  /\ url r.1 = url s.
Proof.
  assert (forall (ps : list (option settlement)) e,
            (ps ++ [Some e]) !! length ps = Some None -> False) as Hrej.
  { intros ps e. by rewrite list_lookup_middle. }
  unfold pending, send, new_promise. simpl.
  destruct (index_lookup msg (gloBloom s)) as [[p u]|]; simpl;
    [|by intros ?%Hrej].
  destruct (js_get (patterns s) (stringify p)) as [[|[h a] rest]| |]; simpl;
    try (by intros ?%Hrej).
  destruct (js_get (sockets s) a) as [x| |] eqn:Hg; simpl.
  - rewrite Hg. destruct tx; simpl; [by intros ?%Hrej|]. intros _.
    split_and!; [|by rewrite lookup_insert_eq|done].
    exists a. by rewrite last_snoc.
  - rewrite Hg. simpl. by intros ?%Hrej.
  - assert (js_get (<[a := PushConnected]> (sockets s)) a = Own PushConnected)
      as -> by apply js_get_Own, lookup_insert_eq.
    destruct tx; simpl; [by intros ?%Hrej|]. intros _.
    split_and!; [|by rewrite lookup_insert_eq|done].
    exists a. by rewrite last_snoc.
Qed.

Lemma reply_last m err msg s :
  js_get (sockets s) (returnUrl m) <> Inherited ->
  (reply m err msg s).2 = Returns
  /\ last (wire (reply m err msg s).1)
     = Some (if truthy err
             then OpSend (returnUrl m)
                         (Meta (requestId m) (url s) (Some "reply") err) []
             else OpSend (returnUrl m)
                         (Meta (requestId m) (url s) (Some "reply") None) msg).
Proof.
  intros Hni. unfold reply.
  destruct (js_get (sockets s) (returnUrl m)) as [x| |] eqn:Hg; simpl; [|done|].
  - rewrite Hg. destruct (truthy err); simpl; by rewrite last_snoc.
  - assert (js_get (<[returnUrl m := PushBound]> (sockets s)) (returnUrl m)
            = Own PushBound) as -> by apply js_get_Own, lookup_insert_eq.
    destruct (truthy err); simpl; by rewrite last_snoc.
Qed.

Lemma handler_done_last m r s :
  js_get (sockets s) (returnUrl m) <> Inherited ->
  last (wire (handler_done m r s))
  = Some (match r with
          | inl v => OpSend (returnUrl m)
                            (Meta (requestId m) (url s) (Some "reply") None) v
          | inr e =>
              if nonempty e
              then OpSend (returnUrl m)
                          (Meta (requestId m) (url s) (Some "reply") (Some e)) []
              else OpSend (returnUrl m)
                          (Meta (requestId m) (url s) (Some "reply") None) []
          end).
Proof.
  intros Hni. unfold handler_done. destruct r as [v|e].
  - destruct (reply_last m None v s Hni) as [Hc Hl].
    destruct (reply m None v s) as [s1 c]. simpl in *. by subst c.
  - destruct (reply_last m (Some e) [] s Hni) as [_ Hl]. by rewrite Hl.
Qed.

(** The delivery of a reply frame for the entry [rid] that [send] made. *)
Lemma reply_delivery rid p d m msg called s :
  requests s !! rid = Some (Request p d) -> nonempty rid = true ->
  pending s p ->
  requestId m = Some rid -> mode m = Some "reply" ->
  let s' := (on_message m msg called s).1 in
  settled_with s' p (reply_outcome m msg) /\ requests s' !! rid = None.
Proof.
  intros Hr Hne Hp Hrid Hmode s'.
  destruct (on_message_reply_own rid _ m msg called s Hr Hne Hrid Hmode)
    as (Hd & Hps & _).
  subst s'. unfold settled_with. rewrite Hd, Hps. simpl. split.
  - by rewrite settle_lookup, decide_True, Hp.
  - apply lookup_delete_eq.
Qed.

Lemma sweep_entry now rid r s :
  requests_inv s -> requests s !! rid = Some r ->
  let s' := (fireRequestTimeouts now s).1 in
  ((expiresOn r < now)%Z ->
   requests s' !! rid = None
   /\ (pending s (promise r) -> settled_with s' (promise r) (Rejected (Error "timeout"))))
  /\ (~ (expiresOn r < now)%Z ->
      requests s' !! rid = Some r
      /\ (pending s (promise r) -> pending s' (promise r))).
Proof.
  intros (H1 & H2 & H3) Hr s'. subst s'. simpl. split.
  - intros Hexp.
    assert (expired now r = true) as He by by apply bool_decide_eq_true.
    split.
    + apply map_lookup_filter_None. right. intros x Hx. simpl.
      assert (x = r) as -> by congruence. by rewrite He.
    + intros Hp. apply (settle_all_hit _ _ _ (rid, r)); [|done].
      apply list_elem_of_filter. split; [done|]. by apply elem_of_map_to_list.
  - intros Hexp.
    assert (expired now r = false) as He by by apply bool_decide_eq_false.
    split.
    + by apply map_lookup_filter_Some.
    + unfold pending. simpl. intros Hp. rewrite settle_all_miss; [done|].
      intros [rid' r'] [Hx Hin]%list_elem_of_filter Heq. simpl in *.
      apply elem_of_map_to_list in Hin.
      assert (rid' = rid) as -> by by eapply H2.
      assert (r' = r) as -> by congruence. congruence.
Qed.

(** ** Ids in the table *)

Lemma step_request_ids s ev : request_ids_inv s -> request_ids_inv (step s ev).
Proof.
  unfold request_ids_inv. intros [Hone Hinv].
  destruct ev as [action key value|now msg tx|m msg called|m r|now]; simpl.
  - destruct (watch_change_requests action key value s) as (-> & _ & -> & ->).
    done.
  - destruct (send_spec now msg tx s)
      as (_ & -> & -> & [[-> _]|[-> _]]); (split; [lia|]).
    + intros rid r Hr. destruct (Hinv rid r Hr) as (n & Hn & ->).
      exists n. split; [lia|done].
    + intros rid r [[<- <-]|[Hne Hr]]%lookup_insert_Some.
      * exists (sidCount s). split; [lia|done].
      * destruct (Hinv rid r Hr) as (n & Hn & ->). exists n. split; [lia|done].
  - destruct (on_message_spec m msg called s)
      as [(-> & _ & -> & ->)|(rid & r & _ & _ & _ & -> & _ & -> & ->)]; [done|].
    split; [done|]. intros rid' r' [_ Hr]%lookup_delete_Some. eauto.
  - destruct (handler_done_requests m r s) as (-> & _ & -> & ->). done.
  - split; [done|]. intros rid r [Hr _]%map_lookup_filter_Some. eauto.
Qed.

Lemma run_request_ids evs s : request_ids_inv s -> request_ids_inv (run evs s).
Proof.
  unfold run. revert s. induction evs as [|ev evs IH]; intros s Hinv; simpl;
    [done|]. by apply IH, step_request_ids.
Qed.

Lemma boot_request_ids prefix address idx :
  request_ids_inv (boot prefix address idx).
Proof.
  split; simpl; [lia|]. intros rid r H. by rewrite lookup_empty in H.
Qed.

(** ** The other tables under an inbound request *)

Lemma reply_tables m err msg s :
  bloom (reply m err msg s).1 = bloom s /\ url (reply m err msg s).1 = url s.
Proof. unfold reply. repeat case_match; done. Qed.

(** ** [instance.on] followed by [main] *)

Lemma normalize_wf o :
  Forall (fun kv => wf_pair kv = true) o -> wf_pattern (normalize o).
Proof.
  intros Ho. split; [apply normalize_sorted|].
  unfold normalize. induction Ho as [|[k v] o Hkv Ho IH]; simpl; [constructor|].
  by apply Forall_insert_sorted.
Qed.

Lemma sonic_stringify o :
  Forall (fun kv => wf_pair kv = true) o ->
  sonic (stringify o) = Some (normalize o).
Proof. intros Ho. apply sonic_serialize. by apply normalize_wf. Qed.

Lemma obj_get_assign_nil key o :
  NoDup o.*1 -> obj_get key (assign [] o) = obj_get key o.
Proof. intros Hd. rewrite obj_get_assign by done. by destruct (obj_get key o). Qed.

Lemma add_handlers_canonical handlers idx :
  Forall (fun kh => canonical kh.1) handlers ->
  exists idx',
    add_handlers handlers idx = Some (idx ++ idx')
    /\ idx'.*2 = handlers.*2
    /\ stringify <$> idx'.*1 = handlers.*1.
Proof.
  intros Hall. revert idx.
  induction Hall as [|[k h] handlers (p & Hs & Hk) _ IH]; intros idx; simpl.
  - exists []. by rewrite app_nil_r.
  - simpl in Hs. rewrite Hs. destruct (IH (index_add p h idx)) as (idx' & -> & H2 & H3).
    exists ((p, h) :: idx'). unfold index_add. rewrite <- app_assoc.
    split; [done|]. simpl in Hk. rewrite !fmap_cons. simpl.
    by rewrite H2, H3, Hk.
Qed.

Lemma add_handlers_unparsable handlers idx :
  Exists (fun kh => sonic kh.1 = None) handlers -> add_handlers handlers idx = None.
Proof.
  intros Hex. revert idx.
  induction Hex as [[k h] handlers Hk|[k h] handlers _ IH]; intros idx; simpl.
  - simpl in Hk. by rewrite Hk.
  - destruct (sonic k); [apply IH | done].
Qed.

(** ** The directory after one ["set"] event *)

Lemma watch_set_first pattern host address p prefix url0 idx :
  sonic pattern = Some p ->
  keydx_exec (publish_key pattern host) = Some (pattern, host) ->
  step (boot prefix url0 idx) (EvWatch "set" (publish_key pattern host) address)
  = State url0 prefix 1 idx [(p, tt)] {[pattern := [(host, address)]]} ∅ ∅ [] [].
Proof.
  intros Hs Hkey. simpl. unfold watch_change. rewrite Hkey.
  destruct (keydx_exec_nonempty _ _ _ Hkey) as [-> ->]. simpl.
  unfold watch_set. simpl.
  rewrite (js_get_absent _ _ (lookup_empty pattern) (sonic_own _ _ Hs)). simpl.
  assert (js_get (<[pattern := []]> (∅ : gmap string (list (string * string))))
                 pattern = Own []) as -> by apply js_get_Own, lookup_insert_eq.
  simpl. rewrite Hs. simpl. unfold set_gloBloom, set_patterns. simpl.
  by rewrite insert_insert_eq, insert_empty.
Qed.

(** ** Segments of a key *)

Lemma take_class_class s g r :
  take_class s = (g, r) -> all_chars keydx_class g = true.
Proof.
  revert g r. induction s as [|c s IH]; intros g r; simpl.
  - by intros [= <- <-].
  - destruct (keydx_class c) eqn:Hc.
    + destruct (take_class s) as [g' r'] eqn:Ht. intros [= <- <-]. simpl.
      rewrite Hc. simpl. by eapply IH.
    + by intros [= <- <-].
Qed.

Lemma keydx_at_class s g1 g2 :
  keydx_at s = Some (g1, g2) ->
  all_chars keydx_class g1 = true /\ all_chars keydx_class g2 = true.
Proof.
  unfold keydx_at. destruct (strip_prefix _ s) as [r|]; [|done].
  destruct (take_class r) as [a r1] eqn:Ha.
  destruct r1 as [|c r2]; [done|].
  destruct (decide (c = "/"%char)) as [->|Hne].
  - destruct (take_class r2) as [b r3] eqn:Hb.
    destruct (nonempty a && nonempty b); [|done].
    intros [= <- <-]. split; by eapply take_class_class.
  - destruct c as [[] [] [] [] [] [] [] []]; done.
Qed.

(** ** A sweep with nothing to do *)

Lemma state_eta s :
  set_promises (promises s) (set_requests (requests s) s) = s.
Proof. by destruct s. Qed.

Lemma filter_none {A} (P : A -> Prop) `{forall x, Decision (P x)} (l : list A) :
  Forall (fun x => ~ P x) l -> filter P l = [].
Proof.
  induction 1 as [|x l Hx _ IH]; [done|]. by rewrite filter_cons_False.
Qed.

(** ** Where the entries of the host table come from *)

Lemma elem_of_map_set h a host value (m : list (string * string)) :
  (h, a) ∈ map_set host value m -> (h, a) ∈ m \/ (h = host /\ a = value).
Proof.
  induction m as [|[h1 a1] m IH]; simpl.
  - intros [= -> ->]%list_elem_of_singleton. by right.
  - destruct (decide (host = h1)) as [->|Hne].
    + intros [[= -> ->]|Hin]%elem_of_cons; [by right|].
      left. by apply list_elem_of_further.
    + intros [[= -> ->]|Hin]%elem_of_cons; [left; apply list_elem_of_here|].
      destruct (IH Hin) as [?|?]; [left; by apply list_elem_of_further | by right].
Qed.

Lemma watch_removal_hosts pattern host s k e :
  e ∈ live_hosts (watch_removal pattern host s).1 k -> e ∈ live_hosts s k.
Proof.
  destruct (watch_removal_spec pattern host s)
    as [->|(hosts & Hl & _ & Hp & _)]; [done|].
  unfold live_hosts. rewrite Hp.
  destruct (decide (k = pattern)) as [->|Hne].
  - rewrite lookup_insert_eq, Hl. simpl. unfold map_delete.
    by intros [_ ?]%list_elem_of_filter.
  - by rewrite lookup_insert_ne.
Qed.

Lemma watch_set_hosts pattern host value s k h a :
  (h, a) ∈ live_hosts (watch_set pattern host value s).1 k ->
  (h, a) ∈ live_hosts s k \/ (k = pattern /\ h = host /\ a = value).
Proof.
  destruct (watch_set_spec pattern host value s) as [[-> _]|[Hp _]]; [by left|].
  unfold live_hosts at 1. rewrite Hp.
  destruct (decide (k = pattern)) as [->|Hne].
  - rewrite lookup_insert_eq. simpl.
    intros [?|[-> ->]]%elem_of_map_set; [by left | by right].
  - rewrite lookup_insert_ne by done. by left.
Qed.

(** A host recorded after a watch event was recorded before it, or the
    event is a ["set"] whose key carries that very segment and host. *)
Lemma watch_change_hosts action key value s k h a :
  (h, a) ∈ live_hosts (watch_change action key value s).1 k ->
  (h, a) ∈ live_hosts s k
  \/ (action = "set" /\ keydx_exec key = Some (k, h) /\ value = a).
Proof.
  unfold watch_change.
  destruct (keydx_exec key) as [[pattern host]|] eqn:Hk; [|by left].
  destruct (negb (nonempty pattern) || negb (nonempty host)); [by left|].
  assert (forall s1,
            (forall e, e ∈ live_hosts s1 k -> e ∈ live_hosts s k) ->
            (h, a) ∈ live_hosts
                       (if bool_decide (action = "set")
                        then watch_set pattern host value s1
                        else (s1, Returns)).1 k ->
            (h, a) ∈ live_hosts s k
            \/ (action = "set" /\ Some (pattern, host) = Some (k, h) /\ value = a))
    as Hset.
  { intros s1 Hsub. case_bool_decide as Ha; simpl; [|by left; apply Hsub].
    intros [?|(-> & -> & ->)]%watch_set_hosts; [left; by apply Hsub | by right]. }
  destruct (is_removal action).
  - pose proof (watch_removal_hosts pattern host s k) as Hsub.
    destruct (watch_removal pattern host s) as [s1 [|x]]; simpl in *.
    + by apply Hset.
    + left. by apply Hsub.
  - by apply Hset.
Qed.

Lemma step_hosts s ev k h a :
  (h, a) ∈ live_hosts (step s ev) k ->
  (h, a) ∈ live_hosts s k
  \/ exists key, ev = EvWatch "set" key a /\ keydx_exec key = Some (k, h).
Proof.
  assert (forall s', patterns s' = patterns s ->
                     (h, a) ∈ live_hosts s' k -> (h, a) ∈ live_hosts s k) as Hsame.
  { intros s' Hp. unfold live_hosts. by rewrite Hp. }
  destruct ev as [action key value|now msg tx|m msg called|m r|now]; simpl.
  - intros [?|(-> & Hk & ->)]%watch_change_hosts; [by left|].
    right. by exists key.
  - intros Hin. left. revert Hin. apply Hsame, send_directory.
  - intros Hin. left. revert Hin. apply Hsame, on_message_directory.
  - intros Hin. left. revert Hin. apply Hsame, handler_done_directory.
  - by left.
Qed.

(** Every host the table records in a state the runtime reaches was put
    there by a ["set"] event for that segment, host and address. *)
Lemma run_hosts evs prefix url0 idx k h a :
  (h, a) ∈ live_hosts (run evs (boot prefix url0 idx)) k ->
  exists key, EvWatch "set" key a ∈ evs /\ keydx_exec key = Some (k, h).
Proof.
  unfold run. induction evs as [|ev evs IH] using rev_ind.
  - unfold live_hosts. simpl. rewrite lookup_empty. simpl.
    by intros ?%elem_of_nil.
  - rewrite foldl_snoc.
    intros [Hin|(key & -> & Hk)]%step_hosts.
    + destruct (IH Hin) as (key & Hev & Hk). exists key. split; [|done].
      apply elem_of_app. by left.
    + exists key. split; [|done]. apply elem_of_app. right.
      apply list_elem_of_here.
Qed.

(** The same for the keys of the table: only a ["set"] event for a
    segment puts that segment there. *)
Lemma watch_removal_keys pattern host s k :
  patterns (watch_removal pattern host s).1 !! k <> None ->
  patterns s !! k <> None.
Proof.
  destruct (watch_removal_spec pattern host s)
    as [->|(hosts & Hl & _ & Hp & _)]; [done|].
  rewrite Hp. destruct (decide (k = pattern)) as [->|Hne].
  - by rewrite Hl.
  - by rewrite lookup_insert_ne.
Qed.

Lemma watch_set_keys pattern host value s k :
  patterns (watch_set pattern host value s).1 !! k <> None ->
  patterns s !! k <> None \/ k = pattern.
Proof.
  destruct (watch_set_spec pattern host value s) as [[-> _]|[Hp _]]; [by left|].
  rewrite Hp. destruct (decide (k = pattern)) as [->|Hne]; [by right|].
  rewrite lookup_insert_ne by done. by left.
Qed.

Lemma watch_change_keys action key value s k :
  patterns (watch_change action key value s).1 !! k <> None ->
  patterns s !! k <> None
  \/ (action = "set" /\ exists host, keydx_exec key = Some (k, host)).
Proof.
  unfold watch_change.
  destruct (keydx_exec key) as [[pattern host]|] eqn:Hk; [|by left].
  destruct (negb (nonempty pattern) || negb (nonempty host)); [by left|].
  assert (forall s1,
            (patterns s1 !! k <> None -> patterns s !! k <> None) ->
            patterns (if bool_decide (action = "set")
                      then watch_set pattern host value s1
                      else (s1, Returns)).1 !! k <> None ->
            patterns s !! k <> None
            \/ (action = "set" /\ exists host0, Some (pattern, host) = Some (k, host0)))
    as Hset.
  { intros s1 Hsub. case_bool_decide as Ha; simpl; [|by left; apply Hsub].
    intros [?| ->]%watch_set_keys; [left; by apply Hsub|].
    right. split; [done|]. by exists host. }
  destruct (is_removal action).
  - pose proof (watch_removal_keys pattern host s k) as Hsub.
    destruct (watch_removal pattern host s) as [s1 [|x]]; simpl in *.
    + by apply Hset.
    + left. by apply Hsub.
  - by apply Hset.
Qed.

Lemma step_keys s ev k :
  patterns (step s ev) !! k <> None ->
  patterns s !! k <> None
  \/ exists key host address,
       ev = EvWatch "set" key address /\ keydx_exec key = Some (k, host).
Proof.
  assert (forall s', patterns s' = patterns s ->
                     patterns s' !! k <> None -> patterns s !! k <> None)
    as Hsame.
  { intros s' Hp. by rewrite Hp. }
  destruct ev as [action key value|now msg tx|m msg called|m r|now]; simpl.
  - intros [?|(-> & host & Hk)]%watch_change_keys; [by left|].
    right. by exists key, host, value.
  - intros Hin. left. revert Hin. apply Hsame, send_directory.
  - intros Hin. left. revert Hin. apply Hsame, on_message_directory.
  - intros Hin. left. revert Hin. apply Hsame, handler_done_directory.
  - by left.
Qed.

Lemma run_keys evs prefix url0 idx k :
  patterns (run evs (boot prefix url0 idx)) !! k <> None ->
  exists key host address,
    EvWatch "set" key address ∈ evs /\ keydx_exec key = Some (k, host).
Proof.
  unfold run. induction evs as [|ev evs IH] using rev_ind.
  - simpl. by rewrite lookup_empty.
  - rewrite foldl_snoc.
    intros [Hin|(key & host & address & -> & Hk)]%step_keys.
    + destruct (IH Hin) as (key & host & address & Hev & Hk).
      exists key, host, address. split; [|done]. apply elem_of_app. by left.
    + exists key, host, address. split; [|done]. apply elem_of_app. right.
      apply list_elem_of_here.
Qed.

(** [send] on a message whose pattern has no key in the host table. *)
Lemma send_no_key now msg tx s p u :
  index_lookup msg (gloBloom s) = Some (p, u) ->
  patterns s !! stringify p = None ->
  let r := send now msg tx s in
  promises r.1 !! r.2
  = Some (Some (Rejected (Error (unroutable_message msg (stringify p)))))
  /\ requests r.1 = requests s /\ sockets r.1 = sockets s
  /\ wire r.1 = wire s.
Proof.
  intros Hl Hp. unfold send, new_promise. simpl. rewrite Hl. simpl.
  rewrite js_get_patterns_stringify, Hp. simpl.
  split; [by apply list_lookup_middle | done].
Qed.

(** ** What [instance.on] stores *)


(** * Properties of the specification *)

(** C1 (amended).  For every sequence of events in which no two
    different pattern segments of watch keys spell the same pattern, and
    every such segment [k] with pattern [p]: [p] is in the global index
    if and only if at least one host is recorded under [k]; a ["set"]
    event for [k] leaves [p] in the index; and while no host is recorded
    under [k], no message is matched to [p]. *)
Theorem C1_index_iff_live_host
    (K : string -> Prop) (evs : list event) (prefix address : string)
    (idx : PatternIndex nat) (k : string) (p : Pattern) :
  unambiguous K ->
  Forall (segment_in K) evs ->
  K k ->
  sonic k = Some p ->
  let s := run evs (boot prefix address idx) in
  (indexed s p <-> live_hosts s k <> [])
  /\ (forall key host address',
        keydx_exec key = Some (k, host) ->
        indexed (step s (EvWatch "set" key address')) p)
  /\ (live_hosts s k = [] ->
      forall msg, fst <$> index_lookup msg (gloBloom s) <> Some p).
Proof.
  intros HK Hall Hk Hs s.
  assert (directory_inv K s) as Hinv
    by (apply run_inv; [done | done | apply boot_inv]).
  split; [by apply (Hinv k p)|]. split.
  - intros key host address' Hkey. simpl. unfold watch_change. rewrite Hkey.
    destruct (keydx_exec_nonempty _ _ _ Hkey) as [-> ->]. simpl.
    destruct (watch_set_spec k host address' s) as [[Heq Hwhy]|[Hp Hg]].
    + rewrite Heq. apply (Hinv k p Hk Hs).
      destruct Hwhy as [Hi|Hhas]; [|by eapply map_has_not_nil].
      pose proof (sonic_own k p Hs) as Hown.
      unfold js_get in Hi. destruct (patterns s !! k); [done|].
      by rewrite bool_decide_eq_false_2 in Hi.
    + unfold indexed. rewrite Hg, Hs. apply elem_of_index_add. by left.
  - intros Hnone msg Hl.
    destruct (index_lookup msg (gloBloom s)) as [[p' u]|] eqn:He; [|done].
    simpl in Hl. injection Hl as ->.
    apply index_lookup_elem in He.
    apply (proj1 (Hinv k p Hk Hs)); [|done].
    unfold indexed. by apply (list_elem_of_fmap_2 fst) in He.
Qed.

Lemma C1_index_iff_live_host_witness :
  let evs := [EvWatch "set" "/services/{a:1}/h1" "tcp://10.0.0.1:4000";
              EvWatch "set" "/services/{a:1}/h2" "tcp://10.0.0.2:4000";
              EvWatch "delete" "/services/{a:1}/h1" ""] in
  let s := run evs (boot "u" "tcp://10.0.0.9:4000" []) in
  indexed s [("a", VNum 1)] <-> live_hosts s "{a:1}" <> [].
Proof.
  intros evs s.
  refine (proj1 (C1_index_iff_live_host canonical evs "u" "tcp://10.0.0.9:4000"
                   [] "{a:1}" [("a", VNum 1)] canonical_unambiguous _ _ _)).
  - repeat constructor; simpl; intros pattern host [= <- <-];
      by apply canonicalb_spec.
  - by apply canonicalb_spec.
  - reflexivity.
Defined.

(** C1 as stated fails: two keys that spell the same pattern share one
    index entry, and removing the last host of one of them removes the
    entry although the other still has a host. *)
Lemma C1_counterexample :
  ~ (forall (evs : list event) (k : string) (p : Pattern),
       sonic k = Some p ->
       let s := run evs (boot "u" "tcp://10.0.0.9:4000" []) in
       indexed s p <-> live_hosts s k <> []).
Proof.
  intros H.
  specialize (H [EvWatch "set" "/services/a:1/h1" "tcp://10.0.0.1:4000";
                 EvWatch "set" "/services/{a:1}/h2" "tcp://10.0.0.2:4000";
                 EvWatch "delete" "/services/a:1/h1" ""]
                "{a:1}" [("a", VNum 1)] eq_refl).
  simpl in H. destruct H as [_ H].
  assert (indexed
            (run [EvWatch "set" "/services/a:1/h1" "tcp://10.0.0.1:4000";
                  EvWatch "set" "/services/{a:1}/h2" "tcp://10.0.0.2:4000";
                  EvWatch "delete" "/services/a:1/h1" ""]
               (boot "u" "tcp://10.0.0.9:4000" []))
            [("a", VNum 1)]) as Hin.
  { apply H. by vm_compute. }
  unfold indexed in Hin. vm_compute in Hin. by apply elem_of_nil in Hin.
Qed.

(** C7.  On a key that [keydx] does not match, the watch callback leaves
    the state as it is and throws a [TypeError]: it does not return. *)
Theorem C7_malformed_key_throws (action key address : string) (s : state) :
  keydx_exec key = None ->
  watch_change action key address s = (s, Throws TypeError).
Proof. intros H. unfold watch_change. by rewrite H. Qed.

Lemma C7_malformed_key_throws_witness :
  keydx_exec "/services/{a:1}" = None
  /\ watch_change "expire" "/services/{a:1}" "" (boot "u" "tcp://10.0.0.9:4000" [])
     = (boot "u" "tcp://10.0.0.9:4000" [], Throws TypeError).
Proof.
  split; [reflexivity|].
  apply (C7_malformed_key_throws "expire" "/services/{a:1}" "").
  reflexivity.
Defined.

(** C9.  A ["set"] event for a pattern and host already in the directory
    changes nothing: host sets, stored addresses and the global index
    stay as they are, and the callback returns. *)
Theorem C9_set_existing_is_noop
    (key pattern host address : string) (s : state) :
  keydx_exec key = Some (pattern, host) ->
  host ∈ (live_hosts s pattern).*1 ->
  watch_change "set" key address s = (s, Returns).
Proof.
  intros Hkey Hin. unfold watch_change. rewrite Hkey.
  destruct (keydx_exec_nonempty _ _ _ Hkey) as [-> ->]. simpl.
  unfold watch_set, live_hosts in *.
  destruct (patterns s !! pattern) as [hosts|] eqn:Hl; simpl in Hin;
    [|by apply elem_of_nil in Hin].
  apply js_get_Own in Hl. rewrite Hl. simpl. rewrite Hl.
  unfold map_has. by rewrite bool_decide_eq_true_2.
Qed.

Lemma C9_set_existing_is_noop_witness :
  let s := run [EvWatch "set" "/services/{a:1}/h1" "tcp://10.0.0.1:4000"]
               (boot "u" "tcp://10.0.0.9:4000" []) in
  watch_change "set" "/services/{a:1}/h1" "tcp://10.0.0.7:7000" s = (s, Returns).
Proof.
  intros s.
  apply (C9_set_existing_is_noop "/services/{a:1}/h1" "{a:1}" "h1").
  - reflexivity.
  - vm_compute. apply list_elem_of_here.
Defined.

(** C4.  When the global index has no pattern for the message, or no
    host is recorded under the serialised form of the pattern it returns,
    [send] hands back a promise that is already rejected with an
    unroutable error, and neither the request table nor the socket table
    nor the wire changes. *)
Theorem C4_unroutable_rejects (now : Z) (msg : obj) (tx : option string) (s : state) :
  (index_lookup msg (gloBloom s) = None
   \/ exists p u, index_lookup msg (gloBloom s) = Some (p, u)
                  /\ live_hosts s (stringify p) = []) ->
  let r := send now msg tx s in
  (exists e, promises r.1 !! r.2 = Some (Some (Rejected e))
             /\ unroutable_error msg e)
  /\ r.2 = length (promises s)
  /\ requests r.1 = requests s
  /\ sockets r.1 = sockets s
  /\ wire r.1 = wire s.
Proof.
  intros Hcase. unfold send, new_promise. simpl.
  destruct Hcase as [->|(p & u & -> & Hl)]; simpl.
  - split; [|done]. eexists. split; [by apply list_lookup_middle|].
    eexists. by left.
  - rewrite js_get_patterns_stringify. unfold live_hosts in Hl.
    destruct (patterns s !! stringify p) as [hosts|]; simpl in *.
    + subst hosts. simpl. split; [|done].
      eexists. split; [by apply list_lookup_middle|]. eexists. by right.
    + split; [|done].
      eexists. split; [by apply list_lookup_middle|]. eexists. by left.
Qed.

Lemma C4_unroutable_rejects_witness :
  let s := boot "u" "tcp://10.0.0.9:4000" [] in
  let r := send 1000 [("role", VStr "adder")] None s in
  requests r.1 = requests s /\ sockets r.1 = sockets s.
Proof.
  intros s r.
  destruct (C4_unroutable_rejects 1000 [("role", VStr "adder")] None s)
    as (_ & _ & Hr & Hs & _).
  - left. reflexivity.
  - by split.
Defined.

(** C10 (amended).  A send that is routed found its host under the
    serialised form of the matched pattern.  In every state the runtime
    reaches, a host recorded under a key of the host table was put there
    by a ["set"] event whose key carries that very segment, host and
    address; so a message matched to a pattern is routed only when some
    ["set"] event carried the serialised form of the pattern as its
    segment, and when no ["set"] event did, [send] rejects the message as
    unroutable and registers nothing.  For the segment [a:1], whose
    serialised form is [{a:1}], send rejects the message as unroutable
    while a host is recorded. *)
Theorem C10_send_looks_up_serialised_form :
  (forall now msg tx s,
      promises (send now msg tx s).1 !! (send now msg tx s).2 = Some None ->
      exists p u host address rest,
        index_lookup msg (gloBloom s) = Some (p, u)
        /\ patterns s !! stringify p = Some ((host, address) :: rest))
  /\ (forall evs prefix url0 idx k host address,
        let s := run evs (boot prefix url0 idx) in
        (host, address) ∈ live_hosts s k ->
        exists key,
          EvWatch "set" key address ∈ evs /\ keydx_exec key = Some (k, host))
  /\ (forall evs prefix url0 idx now msg tx p u,
        let s := run evs (boot prefix url0 idx) in
        index_lookup msg (gloBloom s) = Some (p, u) ->
        (forall key host address,
            EvWatch "set" key address ∈ evs ->
            keydx_exec key <> Some (stringify p, host)) ->
        let r := send now msg tx s in
        promises r.1 !! r.2
        = Some (Some (Rejected (Error (unroutable_message msg (stringify p)))))
        /\ requests r.1 = requests s /\ sockets r.1 = sockets s
        /\ wire r.1 = wire s)
  /\ (let s := step (boot "u" "tcp://10.0.0.9:4000" [])
                    (EvWatch "set" "/services/a:1/h1" "tcp://10.0.0.1:4000") in
      let r := send 1000 [("a", VNum 1)] None s in
      stringify_opt (sonic "a:1") = "{a:1}"
      /\ live_hosts s "a:1" = [("h1", "tcp://10.0.0.1:4000")]
      /\ fst <$> index_lookup [("a", VNum 1)] (gloBloom s) = sonic "a:1"
      /\ promises r.1 !! r.2
         = Some (Some (Rejected (Error
             (unroutable_message [("a", VNum 1)] "{a:1}"))))).
Proof.
  split; [exact send_pending_route|]. split; [|split].
  - intros evs prefix url0 idx k host address s. apply run_hosts.
  - intros evs prefix url0 idx now msg tx p u s Hl Hnone.
    apply (send_no_key now msg tx s p u Hl).
    destruct (patterns s !! stringify p) as [hosts|] eqn:Hp; [exfalso|done].
    destruct (run_keys evs prefix url0 idx (stringify p))
      as (key & host & address & Hev & Hk).
    { fold s. by rewrite Hp. }
    by apply (Hnone key host address).
  - by vm_compute.
Qed.

Lemma C10_send_looks_up_serialised_form_witness :
  let evs := [EvWatch "set" "/services/a:1/h1" "tcp://10.0.0.1:4000";
              EvWatch "set" "/services/b:2/h2" "tcp://10.0.0.2:4000"] in
  let s := run evs (boot "u" "tcp://10.0.0.9:4000" []) in
  let r := send 1000 [("a", VNum 1); ("b", VNum 2)] None s in
  promises r.1 !! r.2
  = Some (Some (Rejected (Error
      (unroutable_message [("a", VNum 1); ("b", VNum 2)]
                          (stringify [("a", VNum 1)])))))
  /\ requests r.1 = requests s /\ sockets r.1 = sockets s
  /\ wire r.1 = wire s.
Proof.
  intros evs s r.
  refine (proj1 (proj2 (proj2 C10_send_looks_up_serialised_form))
            evs "u" "tcp://10.0.0.9:4000" [] 1000%Z
            [("a", VNum 1); ("b", VNum 2)] None [("a", VNum 1)] tt _ _).
  - by vm_compute.
  - intros key host address Hin.
    apply elem_of_cons in Hin as [[= -> ->]|Hin]; [by vm_compute|].
    apply elem_of_cons in Hin as [[= -> ->]|Hin]; [by vm_compute|].
    by apply elem_of_nil in Hin.
Defined.

(** C10 as stated fails: after ["set"] events for the segments [a:1] and
    [{a:1}], which spell one pattern, a message matched to that pattern is
    routed (to the host recorded under [{a:1}]), although the pattern was
    learned from the segment [a:1], whose serialised form is not [a:1]. *)
Lemma C10_counterexample :
  ~ (forall (evs : list event) (key k host address : string) (p : Pattern)
            (now : Z) (msg : obj) (tx : option string),
       EvWatch "set" key address ∈ evs ->
       keydx_exec key = Some (k, host) -> sonic k = Some p ->
       let s := run evs (boot "u" "tcp://10.0.0.9:4000" []) in
       fst <$> index_lookup msg (gloBloom s) = Some p ->
       promises (send now msg tx s).1 !! (send now msg tx s).2 = Some None ->
       stringify p = k).
Proof.
  intros H.
  specialize (H [EvWatch "set" "/services/a:1/h1" "tcp://10.0.0.1:4000";
                 EvWatch "set" "/services/{a:1}/h2" "tcp://10.0.0.2:4000"]
                "/services/a:1/h1" "a:1" "h1" "tcp://10.0.0.1:4000"
                [("a", VNum 1)] 1000%Z [("a", VNum 1)] None).
  assert (stringify [("a", VNum 1)] <> "a:1") as Hne by done.
  apply Hne, H.
  - apply list_elem_of_here.
  - by vm_compute.
  - by vm_compute.
  - by vm_compute.
  - by vm_compute.
Qed.

(** C5.  A lookup returns a registered pattern all of whose constraints
    the message satisfies; every other registered pattern the message
    satisfies has fewer constraints, or as many and a later registration;
    the lookup returns nothing only when no registered pattern is
    satisfied.  For [{a:1}] and [{a:1,b:2}], in either order of
    registration, the message [{a:1,b:2,c:3}] is matched to [{a:1,b:2}]. *)
Theorem C5_lookup_most_specific (A : Type) (idx : PatternIndex A) (m : obj) :
  match index_lookup m idx with
  | Some e =>
      exists i, idx !! i = Some e
        /\ satisfies m e.1
        /\ forall j e', idx !! j = Some e' -> satisfies m e'.1 ->
             specificity e'.1 < specificity e.1
             \/ (specificity e'.1 = specificity e.1 /\ i <= j)
  | None => forall e', e' ∈ idx -> ~ satisfies m e'.1
  end
  /\ (forall a1 a2 : A,
        let P1 := [("a", VNum 1)] in
        let P2 := [("a", VNum 1); ("b", VNum 2)] in
        let M := [("a", VNum 1); ("b", VNum 2); ("c", VNum 3)] in
        index_lookup M [(P1, a1); (P2, a2)] = Some (P2, a2)
        /\ index_lookup M [(P2, a2); (P1, a1)] = Some (P2, a2)).
Proof.
  split; [|by intros a1 a2].
  pose proof (index_lookup_spec m idx) as H.
  destruct (index_lookup m idx) as [e|].
  - destruct H as (i & Hi & He & Hbest). exists i. split; [done|].
    split; [by apply matches_satisfies|].
    intros j e' Hj He'. apply Hbest; [done|]. by apply matches_satisfies.
  - intros e' Hin Hsat. apply matches_satisfies in Hsat.
    rewrite (H e' Hin) in Hsat. done.
Qed.

Lemma C5_lookup_most_specific_witness :
  index_lookup [("a", VNum 1); ("b", VNum 2); ("c", VNum 3)]
    [([("a", VNum 1)], 1); ([("a", VNum 1); ("b", VNum 2)], 2)]
  = Some ([("a", VNum 1); ("b", VNum 2)], 2).
Proof.
  exact (proj1 (proj2 (C5_lookup_most_specific nat [] []) 1 2)).
Defined.




(** C2 (amended).  In every state the runtime reaches: a pending promise
    has exactly one entry in the request table; [send] registers the
    entry with expiry 5000 ms after the call, also when the transport
    call throws and the promise is rejected at once, in which case the
    entry stays in the table; a reply removes the entry and settles its
    promise, if still pending, with the message or the envelope's error;
    a sweep, re-armed every 25 ms, removes every entry whose expiry lies
    before the sweep's time and rejects its promise, if still pending,
    with the timeout error, and leaves the other entries and their
    promises alone; a settled promise is never settled again by any later
    event; and a reply whose id is no longer in the table changes
    nothing. *)
Theorem C2_settled_once
    (evs : list event) (prefix address : string) (idx : PatternIndex nat) :
  let s := run evs (boot prefix address idx) in
  (forall p, pending s p ->
     exists rid r,
       requests s !! rid = Some r /\ promise r = p
       /\ forall rid' r', requests s !! rid' = Some r' -> promise r' = p ->
                          rid' = rid)
  /\ (forall now msg tx,
        let r := send now msg tx s in
        (pending r.1 r.2 \/ exists e, settled_with r.1 r.2 (Rejected (Thrown e))) ->
        requests r.1 !! genId s = Some (Request r.2 (now + 5000)))
  /\ (forall rid r m msg called,
        requests s !! rid = Some r ->
        requestId m = Some rid -> mode m = Some "reply" ->
        let s' := (on_message m msg called s).1 in
        requests s' = delete rid (requests s)
        /\ (pending s (promise r) ->
            settled_with s' (promise r) (reply_outcome m msg)))
  /\ (forall rid r now,
        requests s !! rid = Some r ->
        let s' := (fireRequestTimeouts now s).1 in
        (fireRequestTimeouts now s).2 = 25%Z
        /\ ((expiresOn r < now)%Z ->
            requests s' !! rid = None
            /\ (pending s (promise r) ->
                settled_with s' (promise r) (Rejected (Error "timeout"))))
        /\ (~ (expiresOn r < now)%Z ->
            requests s' !! rid = Some r
            /\ (pending s (promise r) -> pending s' (promise r))))
  /\ (forall p o evs', settled_with s p o -> settled_with (run evs' s) p o)
  /\ (forall n m msg called,
        requests s !! request_id prefix n = None ->
        requestId m = Some (request_id prefix n) -> mode m = Some "reply" ->
        on_message m msg called s = (s, Returns)).
Proof.
  intros s.
  assert (requests_inv s) as Hinv by apply run_requests_inv, boot_requests_inv.
  assert (sidPrefix s = prefix) as Hpre by apply run_sidPrefix.
  destruct Hinv as (H1 & H2 & H3). split_and!.
  - intros p Hp. destruct (H3 p Hp) as (rid & r & Hr & Hpr).
    exists rid, r. split_and!; [done..|].
    intros rid' r' Hr' Hpr'. eapply H2; [done..|congruence].
  - intros now msg tx r Hcase.
    destruct (send_spec now msg tx s)
      as (Hid & _ & _ & [[_ (e & Hps & He)]|[Hreq _]]).
    + exfalso. fold r in Hid, Hps. unfold pending, settled_with in Hcase.
      rewrite Hps, Hid, list_lookup_middle in Hcase by done.
      destruct Hcase as [?|[x ?]]; [done|]. by destruct (He x); congruence.
    + fold r in Hid, Hreq. rewrite Hreq, Hid. apply lookup_insert_eq.
  - intros rid r m msg called Hr Hrid Hmode s'.
    destruct (H1 rid r Hr) as (_ & n & _ & Hn).
    destruct (on_message_reply_own rid r m msg called s Hr) as (Hd & Hp & _);
      [subst rid; apply request_id_nonempty | done..|].
    split; [done|]. unfold pending, settled_with. subst s'. rewrite Hp.
    intros Hpend. by rewrite settle_lookup, decide_True, Hpend.
  - intros rid r now Hr s'. split; [done|]. subst s'. simpl. split.
    + intros Hexp.
      assert (expired now r = true) as He by by apply bool_decide_eq_true.
      split.
      * apply map_lookup_filter_None. right. intros x Hx. simpl.
        assert (x = r) as -> by congruence. by rewrite He.
      * intros Hp. apply (settle_all_hit _ _ _ (rid, r)); [|done].
        apply list_elem_of_filter. split; [done|]. by apply elem_of_map_to_list.
    + intros Hexp.
      assert (expired now r = false) as He by by apply bool_decide_eq_false.
      split.
      * by apply map_lookup_filter_Some.
      * unfold pending. simpl. intros Hp. rewrite settle_all_miss; [done|].
        intros [rid' r'] [Hx Hin]%list_elem_of_filter Heq. simpl in *.
        apply elem_of_map_to_list in Hin.
        assert (rid' = rid) as -> by by eapply H2.
        assert (r' = r) as -> by congruence. congruence.
  - intros p o evs'. apply run_settled.
  - intros n m msg called Hr Hrid Hmode.
    eapply on_message_reply_absent; [done | apply request_id_own | done..].
Qed.

Lemma C2_settled_once_witness :
  let s := run [EvWatch "set" "/services/{a:1}/h1" "tcp://10.0.0.1:4000";
                EvSend 1000 [("a", VNum 1); ("b", VNum 2)] None]
               (boot "u" "tcp://10.0.0.9:4000" []) in
  let s' := (fireRequestTimeouts 6001 s).1 in
  requests s' !! "u:1" = None
  /\ (pending s 0 -> settled_with s' 0 (Rejected (Error "timeout"))).
Proof.
  intros s s'.
  pose proof (C2_settled_once
                [EvWatch "set" "/services/{a:1}/h1" "tcp://10.0.0.1:4000";
                 EvSend 1000 [("a", VNum 1); ("b", VNum 2)] None]
                "u" "tcp://10.0.0.9:4000" []) as H.
  destruct H as (_ & _ & _ & H & _).
  destruct (H "u:1" (Request 0 6000) 6001%Z) as (_ & Hexp & _).
  - by vm_compute.
  - apply Hexp. simpl. lia.
Defined.

(** C2 as stated fails: when the transport call throws, the promise is
    rejected at once and the entry is still in the request table. *)
Lemma C2_counterexample :
  ~ (forall (evs : list event) (now : Z) (msg : obj) (tx : option string)
            (e : string),
       let s := run evs (boot "u" "tcp://10.0.0.9:4000" []) in
       let r := send now msg tx s in
       settled_with r.1 r.2 (Rejected (Thrown e)) ->
       requests r.1 !! genId s = None).
Proof.
  intros H.
  specialize (H [EvWatch "set" "/services/{a:1}/h1" "tcp://10.0.0.1:4000"]
                1000%Z [("a", VNum 1)] (Some "EAGAIN") "EAGAIN").
  simpl in H. assert (Hs : forall A (x : A), Some x <> None) by done.
  eapply Hs. rewrite <- H; [reflexivity|]. by vm_compute.
Qed.

(** C3.  A reply frame whose request id names a property every plain
    object inherits, and which is not an entry of the request table, is
    not dropped: the table lookup is truthy, the callback finds no
    [resolve] or [reject] in it and throws a [TypeError]. *)
Theorem C3_inherited_request_id_throws
    (rid : string) (m : meta) (msg : obj) (called : completion) (s : state) :
  rid ∈ object_prototype_keys ->
  requests s !! rid = None ->
  requestId m = Some rid -> mode m = Some "reply" ->
  on_message m msg called s = (s, Throws TypeError).
Proof.
  intros Hin Hr Hrid Hmode. unfold on_message. rewrite Hmode, Hrid. simpl.
  assert (nonempty rid = true) as ->.
  { unfold object_prototype_keys in Hin.
    repeat (apply elem_of_cons in Hin as [->|Hin]; [done|]).
    by apply elem_of_nil in Hin. }
  unfold js_get. rewrite Hr. by rewrite bool_decide_eq_true_2.
Qed.

Lemma C3_inherited_request_id_throws_witness :
  let s := boot "u" "tcp://10.0.0.9:4000" [] in
  on_message (Meta (Some "constructor") "tcp://10.0.0.1:4000" (Some "reply") None)
             [("sum", VNum 5)] Returns s
  = (s, Throws TypeError).
Proof.
  intros s.
  apply (C3_inherited_request_id_throws "constructor").
  - apply list_elem_of_here.
  - reflexivity.
  - reflexivity.
  - reflexivity.
Defined.

(** C8.  For a request envelope whose return address has no socket yet,
    [reply] creates a push socket and binds it to the return address; it
    does not connect to it.  The same holds when the envelope's message
    has no handler and the callback replies at once. *)
Theorem C8_reply_binds_return_address
    (m : meta) (err : option string) (msg : obj) (s : state) :
  sockets s !! returnUrl m = None ->
  returnUrl m ∉ object_prototype_keys ->
  (let s' := (reply m err msg s).1 in
   sockets s' !! returnUrl m = Some PushBound
   /\ exists frame body,
        wire s' = wire s
                  ++ [OpBind (returnUrl m); OpSend (returnUrl m) frame body])
  /\ (forall called,
        mode m <> Some "reply" -> index_lookup msg (bloom s) = None ->
        on_message m msg called s = reply m (Some "no handler") [] s).
Proof.
  intros Hs Hown. split.
  - unfold reply. rewrite (js_get_absent _ _ Hs Hown). simpl.
    assert (js_get (<[returnUrl m := PushBound]> (sockets s)) (returnUrl m)
            = Own PushBound) as -> by apply js_get_Own, lookup_insert_eq.
    destruct (truthy err); simpl; rewrite lookup_insert_eq;
      (split; [done|]); do 2 eexists; by rewrite <- app_assoc.
  - intros called Hmode Hl. unfold on_message.
    rewrite bool_decide_eq_false_2 by done. by rewrite Hl.
Qed.

Lemma C8_reply_binds_return_address_witness :
  let s := boot "u" "tcp://10.0.0.9:4000" [] in
  let m := Meta (Some "v:7") "tcp://10.0.0.5:6000" None None in
  wire (on_message m [("role", VStr "adder")] Returns s).1
  = [OpBind "tcp://10.0.0.5:6000";
     OpSend "tcp://10.0.0.5:6000"
            (Meta (Some "v:7") "tcp://10.0.0.9:4000" (Some "reply")
                  (Some "no handler")) []].
Proof.
  intros s m.
  destruct (C8_reply_binds_return_address
              m (Some "no handler") [("role", VStr "adder")] s) as [_ H].
  - reflexivity.
  - unfold object_prototype_keys. intros Hin.
    repeat (apply elem_of_cons in Hin as [Hin|Hin]; [discriminate Hin|]).
    by apply elem_of_nil in Hin.
  - rewrite (H Returns ltac:(done) eq_refl). reflexivity.
Defined.

(** * Further properties of the code *)

(** X1.  With [MICRO_EXT_IP] set to a dollar-free value, [fixupUrl]
    replaces the host of [scheme://host:port] by that value and keeps the
    scheme, the port and whatever follows the port. *)
Theorem X1_fixupUrl_replaces_host (ext scheme host port tail : string) :
  nonempty ext = true -> free "$" ext = true ->
  free ":" scheme = true ->
  nonempty host = true -> all_chars host_class host = true ->
  all_chars host_class port = true -> free ":" port = true ->
  stops host_class tail = true ->
  fixupUrl (Some ext) (scheme +:+ "://" +:+ host +:+ ":" +:+ port +:+ tail)
  = scheme +:+ "://" +:+ ext +:+ ":" +:+ port +:+ tail.
Proof.
  intros Hne Hd Hs Hnh Hh Hp Hfp Ht. unfold fixupUrl. simpl. rewrite Hne.
  destruct host as [|c host]; [done|].
  rewrite (host_match_skip scheme _ _ _ Hs
             (host_match_at_host c host port tail Hh Hp Hfp Ht)).
  rewrite expand_plain.
  - f_equal.
    change ("://" +:+ ((ext +:+ ":") +:+ (port +:+ tail))
            = "://" +:+ ext +:+ ":" +:+ port +:+ tail).
    by rewrite string_app_assoc.
  - unfold free in *. rewrite !all_chars_app, Hd. done.
Qed.

Lemma X1_fixupUrl_replaces_host_witness :
  fixupUrl (Some "203.0.113.7") "tcp://0.0.0.0:49152" = "tcp://203.0.113.7:49152".
Proof.
  apply (X1_fixupUrl_replaces_host "203.0.113.7" "tcp" "0.0.0.0" "49152" "");
    reflexivity.
Defined.

(** X2.  [fixupUrl] returns the url as it is when [MICRO_EXT_IP] is unset
    or empty, and also when the text after [://] does not begin with a
    character of the host class (as in [tcp://*:0], an upper-case or a
    bracketed host) and holds no further slash. *)
Theorem X2_fixupUrl_unchanged (extIp : option string) (scheme rest : string) :
  truthy extIp = false
  \/ (free ":" scheme = true /\ stops host_class rest = true
      /\ free "/" rest = true) ->
  fixupUrl extIp (scheme +:+ "://" +:+ rest) = scheme +:+ "://" +:+ rest.
Proof.
  unfold fixupUrl. intros [->|(Hs & Hr & Hf)]; [done|].
  destruct (truthy extIp); [|done].
  assert (host_match (scheme +:+ "://" +:+ rest) = None) as ->; [|done].
  assert (host_match ("://" +:+ rest) = None) as Hcore.
  { change ("://" +:+ rest) with (String ":" (String "/" (String "/" rest))).
    cbn [host_match]. rewrite (host_match_slash_free rest Hf).
    rewrite !(host_match_at_colon_free "/") by done.
    assert (host_match_at (String ":" (String "/" (String "/" rest))) = None)
      as ->; [|done].
    unfold host_match_at. simpl.
    destruct rest as [|c rest]; simpl in *; [done|].
    by apply negb_true_iff in Hr as ->. }
  revert Hs. unfold free. clear Hr Hf.
  induction scheme as [|c scheme IH]; [done|].
  simpl. intros [Hc Hs]%andb_prop. apply bool_decide_eq_true in Hc.
  change (String c scheme +:+ "://" +:+ rest)
    with (String c (scheme +:+ "://" +:+ rest)).
  cbn [host_match]. rewrite host_match_at_colon_free by done.
  by rewrite IH.
Qed.

Lemma X2_fixupUrl_unchanged_witness :
  fixupUrl (Some "203.0.113.7") "tcp://*:0" = "tcp://*:0".
Proof.
  apply (X2_fixupUrl_unchanged (Some "203.0.113.7") "tcp" "*:0").
  right. repeat split; reflexivity.
Defined.

(** X3.  The key [updateServiceDirectory] publishes for a pattern string
    and a process id made of characters of the key class is split by
    [keydx] into exactly that pattern and that id; this covers every id
    [genId] draws from a generator whose prefix is base64 text. *)
Theorem X3_published_key_parses (pattern prefix : string) (n : N) :
  nonempty pattern = true -> all_chars keydx_class pattern = true ->
  all_chars base64_char prefix = true ->
  keydx_exec (publish_key pattern (request_id prefix n))
  = Some (pattern, request_id prefix n).
Proof.
  intros Hn Hp Hb. apply keydx_exec_at, keydx_at_published; try done.
  - apply request_id_nonempty.
  - by apply request_id_class.
Qed.

Lemma X3_published_key_parses_witness :
  keydx_exec (publish_key "{cmd:sum,role:math}" (request_id "Ab/9+x" 0))
  = Some ("{cmd:sum,role:math}", "Ab:9+x:0").
Proof.
  apply (X3_published_key_parses "{cmd:sum,role:math}" "Ab/9+x" 0); reflexivity.
Defined.

(** X4.  Over any number of publish cycles the post-init timer is set at
    most once, never when [calledUpdateYet] is already true, and the only
    timers set are post-init after 1500 ms and the next cycle after
    5000 ms. *)
Theorem X4_post_init_at_most_once
    (hasPostInit : bool) (cycles : list (list set_result)) (called : bool) :
  let r := publish_cycles hasPostInit cycles called in
  length (filter (fun t => is_post_init t = true) r.2) <= 1
  /\ (called = true -> filter (fun t => is_post_init t = true) r.2 = [])
  /\ Forall (fun t => t = PostInitTimer 1500 \/ t = PublishTimer 5000) r.2.
Proof.
  revert called. induction cycles as [|results rest IH]; intros called; simpl.
  { split_and!; [lia | done | constructor]. }
  pose proof (updateServiceDirectory_post_init hasPostInit results called)
    as (Hc & Hle & Hset).
  assert (Forall (fun t => t = PostInitTimer 1500 \/ t = PublishTimer 5000)
            (updateServiceDirectory hasPostInit results called).2) as Hshape.
  { unfold updateServiceDirectory.
    destruct (existsb is_err results), (forallb is_ok results), called,
      hasPostInit; simpl;
      repeat first [apply Forall_nil_2
                   | apply Forall_cons_2; [by (left + right)|]]. }
  destruct (updateServiceDirectory hasPostInit results called) as [c t].
  simpl in *. destruct (existsb is_publish t).
  - destruct (IH c) as (IH1 & IH2 & IH3).
    pose proof (publish_cycles_called hasPostInit rest) as [Hnone _].
    destruct (publish_cycles hasPostInit rest c) as [c' t']. simpl in *.
    rewrite filter_app, length_app. split_and!.
    + destruct (filter (fun t0 => is_post_init t0 = true) t) as [|x l] eqn:Hf.
      * simpl. lia.
      * assert (c = true) as Hct by (by apply Hset).
        rewrite (IH2 Hct). simpl in *. lia.
    + intros ->. destruct (Hc eq_refl) as [-> ->]. by rewrite IH2.
    + by apply Forall_app.
  - split_and!; [done | intros H; by apply Hc | done].
Qed.

(** X5.  When [instance.postInit] is set and every cycle before the
    first one whose [etcd.set] calls all succeed had a failing call (a
    cycle without handlers succeeds): the failing cycles set nothing but
    their own next run after 5000 ms and leave [calledUpdateYet] false;
    the first successful cycle sets the post-init timer, after 1500 ms,
    and then its next run; and no later cycle sets a post-init timer.  So
    the post-init timer is the one set between the failing cycles' timers
    and the successful cycle's own re-arm, and it is the only one. *)
Theorem X5_post_init_on_first_success
    (failed : list (list set_result)) (ok : list set_result)
    (rest : list (list set_result)) :
  Forall (fun results => existsb is_err results = true) failed ->
  forallb is_ok ok = true ->
  publish_cycles true failed false
  = (false, replicate (length failed) (PublishTimer 5000))
  /\ updateServiceDirectory true ok false
     = (true, [PostInitTimer 1500; PublishTimer 5000])
  /\ (publish_cycles true (failed ++ ok :: rest) false).2
     = replicate (length failed) (PublishTimer 5000)
       ++ [PostInitTimer 1500; PublishTimer 5000]
       ++ (publish_cycles true rest true).2
  /\ filter (fun t => is_post_init t = true) (publish_cycles true rest true).2
     = []
  /\ filter (fun t => is_post_init t = true)
            (publish_cycles true (failed ++ ok :: rest) false).2
     = [PostInitTimer 1500].
Proof.
  intros Hfailed Hok.
  assert (updateServiceDirectory true ok false
          = (true, [PostInitTimer 1500; PublishTimer 5000])) as Hcycle.
  { unfold updateServiceDirectory. by rewrite (all_ok_no_err ok Hok), Hok. }
  pose proof (publish_cycles_called true rest) as [Hnone _].
  assert ((publish_cycles true (failed ++ ok :: rest) false).2
          = replicate (length failed) (PublishTimer 5000)
            ++ [PostInitTimer 1500; PublishTimer 5000]
            ++ (publish_cycles true rest true).2) as Hall.
  { rewrite (publish_cycles_failed true failed (ok :: rest) false Hfailed).
    simpl. rewrite Hcycle. simpl.
    by destruct (publish_cycles true rest true). }
  split_and!; [|done..|].
  - rewrite <- (app_nil_r failed) at 1.
    rewrite (publish_cycles_failed true failed [] false Hfailed). simpl.
    by rewrite app_nil_r.
  - rewrite Hall, !filter_app, Hnone.
    rewrite filter_cons_True, filter_cons_False by done.
    assert (filter (fun t => is_post_init t = true)
                   (replicate (length failed) (PublishTimer 5000)) = []) as ->.
    { clear. induction (length failed) as [|n IH]; simpl; [done|].
      by rewrite filter_cons_False. }
    done.
Qed.

Lemma X5_post_init_on_first_success_witness :
  (publish_cycles true [[SetOk; SetErr "etcd down"]; []; [SetOk]] false).2
  = replicate 1 (PublishTimer 5000)
    ++ [PostInitTimer 1500; PublishTimer 5000]
    ++ (publish_cycles true [[SetOk]] true).2.
Proof.
  refine (proj1 (proj2 (proj2
            (X5_post_init_on_first_success
               [[SetOk; SetErr "etcd down"]] [] [[SetOk]] _ _)))).
  - by repeat constructor.
  - reflexivity.
Defined.

Lemma X4_post_init_at_most_once_witness :
  length (filter (fun t => is_post_init t = true)
            (publish_cycles true [[SetOk]; [SetOk]; [SetErr "x"]; [SetOk]] false).2)
  <= 1.
Proof.
  exact (proj1 (X4_post_init_at_most_once
                  true [[SetOk]; [SetOk]; [SetErr "x"]; [SetOk]] false)).
Defined.

(** X6.  In every state the runtime reaches, the wire holds exactly one
    socket creation (connect or bind) for each address of the socket
    table and none for any other address, and every frame was sent to an
    address of the socket table. *)
Theorem X6_socket_created_once
    (evs : list event) (prefix address : string) (idx : PatternIndex nat) :
  let s := run evs (boot prefix address idx) in
  (forall a,
      length (filter (fun op => creates a op = true) (wire s))
      = match sockets s !! a with Some _ => 1 | None => 0 end)
  /\ (forall a m msg, OpSend a m msg ∈ wire s -> is_Some (sockets s !! a)).
Proof.
  intros s.
  apply (pool_step_ok _ _ _ _ (run_pool evs (boot prefix address idx))).
  split; simpl.
  - intros a. by rewrite lookup_empty.
  - intros a m msg H. by apply elem_of_nil in H.
Qed.

(** X7.  No callback replaces or removes a socket of the table, and the
    wire only grows: a socket that [reply] bound for an address is the
    one every later [send] to that address uses. *)
Theorem X7_sockets_are_kept (evs : list event) (s : state) (a : string) (x : socket) :
  sockets s !! a = Some x ->
  sockets (run evs s) !! a = Some x
  /\ exists ops, wire (run evs s) = wire s ++ ops.
Proof.
  intros Ha. destruct (pool_step_grows _ _ _ _ (run_pool evs s)) as [Hk Hw].
  split; [by apply Hk | done].
Qed.

Lemma X7_sockets_are_kept_witness :
  let s := (on_message (Meta (Some "v:7") "tcp://10.0.0.5:6000" None None)
                       [("role", VStr "adder")] Returns
                       (boot "u" "tcp://10.0.0.9:4000" [])).1 in
  sockets (run [EvWatch "set" "/services/{a:1}/h" "tcp://10.0.0.5:6000";
                EvSend 10 [("a", VNum 1)] None] s)
    !! "tcp://10.0.0.5:6000" = Some PushBound.
Proof.
  intros s.
  apply (X7_sockets_are_kept
           [EvWatch "set" "/services/{a:1}/h" "tcp://10.0.0.5:6000";
            EvSend 10 [("a", VNum 1)] None] s "tcp://10.0.0.5:6000" PushBound).
  by vm_compute.
Defined.

(** X8.  Request and reply across two processes: when [send] in process
    A leaves its promise pending, the frame it put on the wire, given to a
    process B that has a handler for the message, makes B (once the
    handler, whose call returned, completes with [result]) send to A's
    url a reply frame with the same request id; and that frame, given to
    A, fulfils the promise with [result] and removes the entry from A's
    request table. *)
Theorem X8_request_reply_round_trip
    (sA sB : state) (now : Z) (msg result : obj) (tx : option string)
    (h : Pattern * nat) :
  pending (send now msg tx sA).1 (send now msg tx sA).2 ->
  index_lookup msg (bloom sB) = Some h ->
  js_get (sockets sB) (url sA) <> Inherited ->
  let rA := send now msg tx sA in
  let request := Meta (Some (genId sA)) (url sA) None None in
  let answer := Meta (Some (genId sA)) (url sB) (Some "reply") None in
  (exists a, last (wire rA.1) = Some (OpSend a request msg))
  /\ on_message request msg Returns sB = (sB, Returns)
  /\ last (wire (handler_done request (inl result) sB))
     = Some (OpSend (url sA) answer result)
  /\ forall called,
       settled_with (on_message answer result called rA.1).1 rA.2
                    (Fulfilled result)
       /\ requests (on_message answer result called rA.1).1 !! genId sA = None.
Proof.
  intros Hp Hh Hni rA request answer.
  destruct (send_pending_effect now msg tx sA Hp) as (Hw & Hr & _).
  split; [done|]. split.
  { unfold on_message. simpl. by rewrite Hh. }
  split.
  { by rewrite (handler_done_last request (inl result) sB Hni). }
  intros called.
  apply (reply_delivery (genId sA) rA.2 (now + default_timeout) answer result
           called rA.1); try done.
  apply request_id_nonempty.
Qed.

Lemma X8_request_reply_round_trip_witness :
  let sA := run [EvWatch "set" "/services/{role:adder}/b:0" "tcp://10.0.0.2:4000"]
                (boot "a" "tcp://10.0.0.1:4000" []) in
  let sB := boot "b" "tcp://10.0.0.2:4000" [([("role", VStr "adder")], 0)] in
  let msg := [("role", VStr "adder"); ("a", VNum 2); ("b", VNum 3)] in
  let rA := send 1000 msg None sA in
  settled_with
    (on_message (Meta (Some "a:1") "tcp://10.0.0.2:4000" (Some "reply") None)
                [("sum", VNum 5)] Returns rA.1).1
    0 (Fulfilled [("sum", VNum 5)]).
Proof.
  intros sA sB msg rA.
  refine (proj1 (proj2 (proj2 (proj2
            (X8_request_reply_round_trip sA sB 1000 msg [("sum", VNum 5)] None
               ([("role", VStr "adder")], 0) _ _ _))) Returns)); by vm_compute.
Defined.

(** X9.  The failing round trips.  When the promise of B's handler is
    rejected with a non-empty error, or B has no handler for the message,
    B's reply frame carries the error (["no handler"] in the second case)
    and an empty message, and given to A it rejects the pending promise
    with that error and removes the entry.  When the call of B's handler
    itself throws, the callback throws the same exception and B is left
    as it was: no socket is made and nothing is put on the wire. *)
Theorem X9_request_error_round_trip
    (sA sB : state) (now : Z) (msg : obj) (tx : option string) (e : string) :
  pending (send now msg tx sA).1 (send now msg tx sA).2 ->
  js_get (sockets sB) (url sA) <> Inherited ->
  nonempty e = true ->
  let rA := send now msg tx sA in
  let request := Meta (Some (genId sA)) (url sA) None None in
  let failure x := Meta (Some (genId sA)) (url sB) (Some "reply") (Some x) in
  last (wire (handler_done request (inr e) sB))
  = Some (OpSend (url sA) (failure e) [])
  /\ (forall called,
        index_lookup msg (bloom sB) = None ->
        last (wire (on_message request msg called sB).1)
        = Some (OpSend (url sA) (failure "no handler") []))
  /\ (forall h x,
        index_lookup msg (bloom sB) = Some h ->
        on_message request msg (Throws x) sB = (sB, Throws x))
  /\ forall x called, nonempty x = true ->
       settled_with (on_message (failure x) [] called rA.1).1 rA.2
                    (Rejected (Thrown x))
       /\ requests (on_message (failure x) [] called rA.1).1 !! genId sA = None.
Proof.
  intros Hp Hni He rA request failure.
  destruct (send_pending_effect now msg tx sA Hp) as (_ & Hr & _).
  split.
  { rewrite (handler_done_last request (inr e) sB Hni). by rewrite He. }
  split.
  { intros called Hn. unfold on_message. simpl. rewrite Hn.
    by destruct (reply_last request (Some "no handler") [] sB Hni) as [_ ->]. }
  split.
  { intros h x Hh. unfold on_message. simpl. by rewrite Hh. }
  intros x called Hx.
  pose proof (reply_delivery (genId sA) rA.2 (now + default_timeout)
                (failure x) [] called rA.1 Hr (request_id_nonempty _ _) Hp
                eq_refl eq_refl) as H.
  unfold reply_outcome in H. simpl in H. by rewrite Hx in H.
Qed.

Lemma X9_request_error_round_trip_witness :
  let sA := run [EvWatch "set" "/services/{role:adder}/b:0" "tcp://10.0.0.2:4000"]
                (boot "a" "tcp://10.0.0.1:4000" []) in
  let sB := boot "b" "tcp://10.0.0.2:4000" [([("role", VStr "adder")], 0)] in
  let msg := [("role", VStr "adder")] in
  on_message (Meta (Some "a:1") "tcp://10.0.0.1:4000" None None)
             msg (Throws (Error "boom")) sB
  = (sB, Throws (Error "boom")).
Proof.
  intros sA sB msg.
  refine (proj1 (proj2 (proj2
            (X9_request_error_round_trip sA sB 1000 msg None "boom" _ _ _)))
            ([("role", VStr "adder")], 0) (Error "boom") _); by vm_compute.
Defined.

(** X10.  Replies are matched by request id alone: in every state the
    runtime reaches, a reply frame for one entry of the request table
    leaves every other entry in the table and its promise as it was. *)
Theorem X10_reply_leaves_other_requests
    (evs : list event) (prefix address : string) (idx : PatternIndex nat)
    (rid1 rid2 : string) (r1 r2 : request) (m : meta) (msg : obj) :
  let s := run evs (boot prefix address idx) in
  requests s !! rid1 = Some r1 -> requests s !! rid2 = Some r2 ->
  rid1 <> rid2 ->
  requestId m = Some rid1 -> mode m = Some "reply" ->
  forall called,
    requests (on_message m msg called s).1 !! rid2 = Some r2
    /\ promises (on_message m msg called s).1 !! promise r2
       = promises s !! promise r2.
Proof.
  intros s Hr1 Hr2 Hne Hrid Hmode called.
  destruct (run_requests_inv evs _ (boot_requests_inv prefix address idx))
    as (H1 & H2 & _). fold s in H1, H2.
  destruct (H1 rid1 r1 Hr1) as (_ & n & _ & Hn).
  destruct (on_message_reply_own rid1 r1 m msg called s Hr1) as (Hd & Hp & _);
    [subst rid1; apply request_id_nonempty | done..|].
  rewrite Hd, Hp. split.
  - by rewrite lookup_delete_ne.
  - rewrite settle_lookup, decide_False; [done|].
    intros Heq. apply Hne. symmetry. by eapply H2.
Qed.

Lemma X10_reply_leaves_other_requests_witness :
  let s := run [EvWatch "set" "/services/{a:1}/h" "tcp://10.0.0.5:6000";
                EvSend 10 [("a", VNum 1)] None;
                EvSend 20 [("a", VNum 1); ("b", VNum 2)] None]
               (boot "u" "tcp://10.0.0.9:4000" []) in
  requests (on_message (Meta (Some "u:2") "tcp://10.0.0.5:6000" (Some "reply") None)
                       [("sum", VNum 5)] Returns s).1 !! "u:1"
  = Some (Request 0 5010).
Proof.
  intros s.
  refine (proj1 (X10_reply_leaves_other_requests
                   [EvWatch "set" "/services/{a:1}/h" "tcp://10.0.0.5:6000";
                    EvSend 10 [("a", VNum 1)] None;
                    EvSend 20 [("a", VNum 1); ("b", VNum 2)] None]
                   "u" "tcp://10.0.0.9:4000" [] "u:2" "u:1"
                   (Request 1 5020) (Request 0 5010) _ [("sum", VNum 5)]
                   _ _ _ _ _ Returns)); by vm_compute.
Defined.

(** X11.  The deadline of a routed send made at time [now], in a state
    the runtime reaches: a sweep at any time up to and including
    [now + 5000] leaves the entry and the pending promise; a sweep at any
    later time removes the entry and rejects the promise with the timeout
    error, and a reply for that id arriving afterwards changes nothing. *)
Theorem X11_deadline_of_a_send
    (evs : list event) (prefix address : string) (idx : PatternIndex nat)
    (now t : Z) (msg : obj) (tx : option string) :
  let s := run evs (boot prefix address idx) in
  let r := send now msg tx s in
  let s' := (fireRequestTimeouts t r.1).1 in
  pending r.1 r.2 ->
  ((t <= now + 5000)%Z ->
   pending s' r.2
   /\ requests s' !! genId s = Some (Request r.2 (now + 5000)))
  /\ ((now + 5000 < t)%Z ->
      settled_with s' r.2 (Rejected (Error "timeout"))
      /\ requests s' !! genId s = None
      /\ forall m reply_msg called,
           requestId m = Some (genId s) -> mode m = Some "reply" ->
           on_message m reply_msg called s' = (s', Returns)).
Proof.
  intros s r s' Hp.
  assert (requests_inv r.1) as Hinv.
  { apply send_inv, run_requests_inv, boot_requests_inv. }
  destruct (send_pending_effect now msg tx s Hp) as (_ & Hr & _).
  fold r in Hr.
  destruct (sweep_entry t (genId s) (Request r.2 (now + default_timeout)) r.1
              Hinv Hr) as [Hexp Hkeep].
  fold s' in Hexp, Hkeep. simpl in Hexp, Hkeep. unfold default_timeout in *.
  split.
  - intros Ht. destruct Hkeep as [Hk1 Hk2]; [lia|]. split; [by apply Hk2|done].
  - intros Ht. destruct Hexp as [He1 He2]; [lia|].
    split; [by apply He2|]. split; [done|].
    intros m reply_msg called Hrid Hmode.
    eapply on_message_reply_absent; [exact He1 | | done..].
    rewrite genId_request_id. apply request_id_own.
Qed.

Lemma X11_deadline_of_a_send_witness :
  let s := run [EvWatch "set" "/services/{a:1}/h" "tcp://10.0.0.5:6000"]
               (boot "u" "tcp://10.0.0.9:4000" []) in
  let r := send 1000 [("a", VNum 1)] None s in
  pending (fireRequestTimeouts 6000 r.1).1 r.2
  /\ requests (fireRequestTimeouts 6000 r.1).1 !! genId s
     = Some (Request r.2 (1000 + 5000)).
Proof.
  intros s r.
  refine (proj1 (X11_deadline_of_a_send
                   [EvWatch "set" "/services/{a:1}/h" "tcp://10.0.0.5:6000"]
                   "u" "tcp://10.0.0.9:4000" [] 1000 6000 [("a", VNum 1)] None _)
            _).
  - by vm_compute.
  - lia.
Defined.

(** X12.  In every state reached after [create] and [main], the id the
    next [send] will draw is not in the request table, and no entry of
    the table sits under the process id that [create] drew. *)
Theorem X12_request_ids_are_fresh
    (extIp : option string) (prefix endpoint : string)
    (handlers : list (string * nat)) (s0 : state) (evs : list event) :
  start extIp prefix endpoint handlers = Some s0 ->
  let s := run evs s0 in
  requests s !! genId s = None
  /\ forall rid r, requests s !! rid = Some r ->
                   rid <> (create extIp prefix endpoint).1.
Proof.
  intros Hs s. unfold start, main in Hs.
  destruct (add_handlers handlers []) as [idx|]; [|done].
  simpl in Hs. injection Hs as <-.
  destruct (run_request_ids evs _ (boot_request_ids prefix
                (fixupUrl extIp endpoint) idx)) as [Hone Hids].
  fold s in Hone, Hids.
  assert (sidPrefix s = prefix) as Hpre by apply run_sidPrefix.
  split.
  - destruct (requests s !! genId s) as [r|] eqn:Hr; [|done].
    destruct (Hids _ _ Hr) as (n & Hn & Heq).
    rewrite genId_request_id in Heq. apply request_id_inj in Heq. lia.
  - intros rid r Hr Heq. destruct (Hids _ _ Hr) as (n & Hn & ->).
    simpl in Heq. rewrite Hpre in Heq. apply request_id_inj in Heq. lia.
Qed.

Lemma X12_request_ids_are_fresh_witness :
  let s := run [EvWatch "set" "/services/{a:1}/h" "tcp://10.0.0.5:6000";
                EvSend 10 [("a", VNum 1)] None]
               (boot "u" "tcp://10.0.0.9:4000" []) in
  requests s !! genId s = None.
Proof.
  intros s.
  refine (proj1 (X12_request_ids_are_fresh None "u" "tcp://10.0.0.9:4000" []
                   (boot "u" "tcp://10.0.0.9:4000" [])
                   [EvWatch "set" "/services/{a:1}/h" "tcp://10.0.0.5:6000";
                    EvSend 10 [("a", VNum 1)] None] _)).
  reflexivity.
Defined.

(** X13.  Serving an inbound request, from the arrival of its frame to
    the reply after the handler has completed, changes neither the
    request table, nor any promise, nor the id generator, nor the
    directory and the two pattern indexes. *)
Theorem X13_serving_leaves_own_calls
    (m : meta) (msg : obj) (called : completion) (r : obj + string) (s : state) :
  mode m <> Some "reply" ->
  let s' := handler_done m r (on_message m msg called s).1 in
  same_requests s s'
  /\ patterns s' = patterns s /\ gloBloom s' = gloBloom s /\ bloom s' = bloom s.
Proof.
  intros Hmode s'.
  assert (forall err body s0,
            same_requests s0 (reply m err body s0).1
            /\ patterns (reply m err body s0).1 = patterns s0
            /\ gloBloom (reply m err body s0).1 = gloBloom s0
            /\ bloom (reply m err body s0).1 = bloom s0) as Hreply.
  { intros. split; [apply reply_requests|].
    destruct (reply_directory m err body s0) as [-> ->].
    by destruct (reply_tables m err body s0) as [-> _]. }
  assert (same_requests s (on_message m msg called s).1
          /\ patterns (on_message m msg called s).1 = patterns s
          /\ gloBloom (on_message m msg called s).1 = gloBloom s
          /\ bloom (on_message m msg called s).1 = bloom s) as (Ha & Hb & Hc & Hd).
  { unfold on_message. rewrite bool_decide_eq_false_2 by done.
    destruct (index_lookup msg (bloom s)); [|apply Hreply].
    split; [apply same_requests_refl | done]. }
  subst s'. set (s1 := (on_message m msg called s).1) in *.
  assert (same_requests s1 (handler_done m r s1)
          /\ patterns (handler_done m r s1) = patterns s1
          /\ gloBloom (handler_done m r s1) = gloBloom s1
          /\ bloom (handler_done m r s1) = bloom s1) as (Ha' & Hb' & Hc' & Hd').
  { unfold handler_done. destruct r as [v|e]; [|apply Hreply].
    pose proof (Hreply None v s1) as (H1 & H2 & H3 & H4).
    destruct (reply m None v s1) as [s2 [|x]]; simpl in *; [done|].
    destruct (Hreply (Some "TypeError") [] s2) as (H1' & -> & -> & ->).
    split; [by eapply same_requests_trans | done]. }
  split; [by eapply same_requests_trans|]. split_and!; congruence.
Qed.

Lemma X13_serving_leaves_own_calls_witness :
  let s := run [EvWatch "set" "/services/{a:1}/h" "tcp://10.0.0.5:6000";
                EvSend 10 [("a", VNum 1)] None]
               (boot "u" "tcp://10.0.0.9:4000" [([("role", VStr "adder")], 0)]) in
  let m := Meta (Some "v:7") "tcp://10.0.0.5:6000" None None in
  same_requests s
    (handler_done m (inl [("sum", VNum 5)])
                  (on_message m [("role", VStr "adder")] Returns s).1).
Proof.
  intros s m.
  refine (proj1 (X13_serving_leaves_own_calls
                   m [("role", VStr "adder")] Returns (inl [("sum", VNum 5)]) s _)).
  done.
Defined.

(** X14.  The pattern string [instance.on] stores for pattern text, under
    a service prefix of unquoted keys and scalars, is parsed back by
    [sonic] to a pattern that serialises to the same string; in that
    pattern a key of the description has the description's value, and any
    other key has the prefix's value. *)
Theorem X14_on_pattern_reparses (prefix : obj) (t k : string) :
  Forall (fun kv => wf_pair kv = true) prefix ->
  NoDup prefix.*1 ->
  on prefix (Text t) = Some k ->
  exists o p,
    sonic t = Some o /\ sonic k = Some p /\ stringify p = k
    /\ forall key,
         obj_get key p
         = match obj_get key o with
           | Some v => Some v
           | None => obj_get key prefix
           end.
Proof.
  intros Hwf Hd. simpl. destruct (sonic t) as [o|] eqn:Hs; [|done].
  intros [= <-]. pose proof (sonic_wf t o Hs) as [Hso Hwo].
  set (merged := assign (assign [] prefix) o).
  assert (Forall (fun kv => wf_pair kv = true) merged) as Hm.
  { apply assign_wf; [|done]. by apply assign_wf. }
  exists o, (normalize merged). split_and!; [done | by apply sonic_stringify | |].
  - unfold stringify. by rewrite (normalize_id (normalize merged))
      by apply normalize_sorted.
  - intros key. rewrite obj_get_normalize. unfold merged.
    rewrite obj_get_assign by by apply sorted_NoDup.
    by rewrite obj_get_assign_nil.
Qed.

Lemma X14_on_pattern_reparses_witness :
  exists o p,
    sonic "cmd:sum,role:calc" = Some o
    /\ sonic "{cmd:sum,role:calc,v:1}" = Some p
    /\ stringify p = "{cmd:sum,role:calc,v:1}"
    /\ forall key,
         obj_get key p
         = match obj_get key o with
           | Some v => Some v
           | None => obj_get key [("role", VStr "math"); ("v", VNum 1)]
           end.
Proof.
  apply (X14_on_pattern_reparses [("role", VStr "math"); ("v", VNum 1)]
           "cmd:sum,role:calc" "{cmd:sum,role:calc,v:1}").
  - by repeat constructor.
  - refine (bool_decide_unpack _ _). by vm_compute.
  - reflexivity.
Defined.

(** X15.  [main] does not throw on handlers whose pattern strings are in
    canonical form, as [instance.on] stores them: it builds the local
    index with one entry per handler, in registration order, each under
    the pattern its string serialises, and starts with empty directory,
    request and socket tables. *)
Theorem X15_main_indexes_handlers
    (prefix url0 : string) (handlers : list (string * nat)) :
  Forall (fun kh => canonical kh.1) handlers ->
  exists s,
    main prefix url0 handlers = Some s
    /\ (bloom s).*2 = handlers.*2
    /\ stringify <$> (bloom s).*1 = handlers.*1
    /\ gloBloom s = [] /\ patterns s = ∅ /\ requests s = ∅ /\ sockets s = ∅.
Proof.
  intros Hall. unfold main.
  destruct (add_handlers_canonical handlers [] Hall) as (idx & -> & H2 & H3).
  simpl. eexists. split; [done|]. simpl. done.
Qed.

Lemma X15_main_indexes_handlers_witness :
  exists s,
    main "u" "tcp://10.0.0.9:4000" [("{cmd:sum,role:math}", 0); ("{role:math}", 1)]
    = Some s
    /\ (bloom s).*2 = [0; 1].
Proof.
  destruct (X15_main_indexes_handlers "u" "tcp://10.0.0.9:4000"
              [("{cmd:sum,role:math}", 0); ("{role:math}", 1)])
    as (s & Hs & H2 & _).
  - repeat constructor; by apply canonicalb_spec.
  - by exists s.
Defined.

(** X16.  [main] throws, and no state is set up, as soon as one handler's
    pattern string fails to parse. *)
Theorem X16_main_rejects_unparsable
    (prefix url0 : string) (handlers : list (string * nat)) :
  Exists (fun kh => sonic kh.1 = None) handlers ->
  main prefix url0 handlers = None.
Proof.
  intros Hex. unfold main. by rewrite add_handlers_unparsable.
Qed.

Lemma X16_main_rejects_unparsable_witness :
  main "u" "tcp://10.0.0.9:4000" [("{role:math}", 0); ("{role", 1)] = None.
Proof.
  apply X16_main_rejects_unparsable.
  apply Exists_cons_tl, Exists_cons_hd. reflexivity.
Defined.

(** X17.  From publication to routing: after the watch callback has seen
    the ["set"] event for a key another process published for a canonical
    pattern, [send] routes a message that satisfies the pattern: it
    connects to the advertised address, registers the request under the
    next id with expiry 5000 ms later, and sends the message with that id
    and its own url as return address; the promise stays pending. *)
Theorem X17_learned_pattern_is_routed
    (prefix url0 : string) (idx : PatternIndex nat)
    (pattern host address : string) (p : Pattern) (now : Z) (msg : obj) :
  canonical pattern -> sonic pattern = Some p ->
  keydx_exec (publish_key pattern host) = Some (pattern, host) ->
  satisfies msg p ->
  address ∉ object_prototype_keys ->
  let s := step (boot prefix url0 idx)
                (EvWatch "set" (publish_key pattern host) address) in
  let r := send now msg None s in
  pending r.1 r.2
  /\ wire r.1
     = [OpConnect address;
        OpSend address (Meta (Some (request_id prefix 1)) url0 None None) msg]
  /\ requests r.1 !! request_id prefix 1 = Some (Request r.2 (now + 5000))
  /\ sockets r.1 !! address = Some PushConnected.
Proof.
  intros (p' & Hs' & Hstr) Hs Hkey Hsat Hown s r.
  assert (p' = p) as -> by congruence.
  subst r s. rewrite (watch_set_first pattern host address p) by done.
  unfold send, new_promise, pending, bump_sid.
  cbn [url sidPrefix sidCount bloom gloBloom patterns requests sockets
       promises wire index_lookup foldl].
  unfold pick. cbn [fst]. rewrite (proj2 (matches_satisfies p msg) Hsat).
  cbn [fmap option_fmap option_map stringify_opt fst].
  rewrite nonempty_stringify, Hstr. cbn [negb patterns].
  assert (js_get ({[pattern := [(host, address)]]} : gmap string _) pattern
          = Own [(host, address)]) as ->
      by apply js_get_Own, lookup_singleton_eq.
  cbn [sockets]. rewrite (js_get_absent _ _ (lookup_empty address) Hown).
  cbn [emit set_sockets sockets].
  assert (js_get (<[address := PushConnected]> (∅ : gmap string socket)) address
          = Own PushConnected) as -> by apply js_get_Own, lookup_insert_eq.
  simpl. rewrite !lookup_insert_eq. done.
Qed.

Lemma X17_learned_pattern_is_routed_witness :
  let s := step (boot "a" "tcp://10.0.0.1:4000" [])
                (EvWatch "set" (publish_key "{role:adder}" "b:0")
                         "tcp://10.0.0.2:4000") in
  pending (send 0 [("role", VStr "adder"); ("x", VNum 2)] None s).1
          (send 0 [("role", VStr "adder"); ("x", VNum 2)] None s).2.
Proof.
  intros s.
  refine (proj1 (X17_learned_pattern_is_routed "a" "tcp://10.0.0.1:4000" []
                   "{role:adder}" "b:0" "tcp://10.0.0.2:4000"
                   [("role", VStr "adder")] 0
                   [("role", VStr "adder"); ("x", VNum 2)] _ _ _ _ _)).
  - by apply canonicalb_spec.
  - reflexivity.
  - reflexivity.
  - apply matches_satisfies. reflexivity.
  - unfold object_prototype_keys. intros Hin.
    repeat (apply elem_of_cons in Hin as [Hin|Hin]; [discriminate Hin|]).
    by apply elem_of_nil in Hin.
Defined.

(** X18.  The ["delete"] or ["expire"] event that removes the last host
    recorded under a pattern empties the host map, removes the pattern
    from the global index, and then throws a [TypeError]: the entry of
    [patterns] is not deleted and the callback does not return. *)
Theorem X18_last_host_removal_throws
    (action key pattern host address value0 : string) (p : Pattern) (s : state) :
  is_removal action = true ->
  keydx_exec key = Some (pattern, host) ->
  patterns s !! pattern = Some [(host, address)] ->
  sonic pattern = Some p ->
  watch_change action key value0 s
  = (set_gloBloom (index_remove p (gloBloom s))
       (set_patterns (<[pattern := []]> (patterns s)) s),
     Throws TypeError).
Proof.
  intros Hact Hkey Hp Hs. unfold watch_change. rewrite Hkey.
  destruct (keydx_exec_nonempty _ _ _ Hkey) as [-> ->]. simpl.
  rewrite Hact. by rewrite (watch_removal_last_host pattern host address s p).
Qed.

Lemma X18_last_host_removal_throws_witness :
  let s := run [EvWatch "set" "/services/{a:1}/h1" "tcp://10.0.0.1:4000"]
               (boot "u" "tcp://10.0.0.9:4000" []) in
  (watch_change "expire" "/services/{a:1}/h1" "" s).2 = Throws TypeError.
Proof.
  intros s.
  rewrite (X18_last_host_removal_throws "expire" "/services/{a:1}/h1" "{a:1}"
             "h1" "tcp://10.0.0.1:4000" "" [("a", VNum 1)] s);
    [reflexivity | reflexivity | reflexivity | by vm_compute | reflexivity].
Defined.

(** X19.  The watch callback returns with the state unchanged for an
    event whose action is none of ["set"], ["expire"] and ["delete"], and
    for a removal of a host that is not recorded under the pattern, the
    pattern being no inherited property name. *)
Theorem X19_watch_ignores
    (action key pattern host value0 : string) (s : state) :
  keydx_exec key = Some (pattern, host) ->
  (is_removal action = false /\ action <> "set")
  \/ (is_removal action = true
      /\ (host ∉ (live_hosts s pattern).*1)
      /\ (pattern ∉ object_prototype_keys)) ->
  watch_change action key value0 s = (s, Returns).
Proof.
  intros Hkey Hcase. unfold watch_change. rewrite Hkey.
  destruct (keydx_exec_nonempty _ _ _ Hkey) as [-> ->]. simpl.
  destruct Hcase as [[-> Hne]|(Hrem & Hhost & Hown)].
  - by rewrite bool_decide_eq_false_2.
  - assert (action <> "set") as Hne.
    { intros ->. done. }
    rewrite Hrem. unfold watch_removal, live_hosts, js_get in *.
    destruct (patterns s !! pattern) as [hosts|]; simpl in *.
    + unfold map_has. rewrite bool_decide_eq_false_2 by done.
      by rewrite bool_decide_eq_false_2.
    + rewrite (bool_decide_eq_false_2 _ Hown).
      by rewrite bool_decide_eq_false_2.
Qed.

Lemma X19_watch_ignores_witness :
  let s := run [EvWatch "set" "/services/{a:1}/h1" "tcp://10.0.0.1:4000"]
               (boot "u" "tcp://10.0.0.9:4000" []) in
  watch_change "update" "/services/{a:1}/h1" "tcp://10.0.0.7:4000" s = (s, Returns).
Proof.
  intros s.
  apply (X19_watch_ignores "update" "/services/{a:1}/h1" "{a:1}" "h1").
  - reflexivity.
  - left. split; [reflexivity | discriminate].
Defined.

(** X20.  [send] goes to the first host recorded under the serialised
    form of the matched pattern.  When the socket table has a socket for
    that host's address the frame goes out on it and nothing is
    connected; when it has none, one is connected first.  In both cases
    the request is registered under the drawn id and the promise stays
    pending. *)
Theorem X20_send_uses_first_host
    (now : Z) (msg : obj) (s : state) (p : Pattern) (u : unit)
    (host address : string) (rest : HostMap) :
  index_lookup msg (gloBloom s) = Some (p, u) ->
  patterns s !! stringify p = Some ((host, address) :: rest) ->
  js_get (sockets s) address <> Inherited ->
  let r := send now msg None s in
  let frame := OpSend address (Meta (Some (genId s)) (url s) None None) msg in
  pending r.1 r.2
  /\ requests r.1 = <[genId s := Request r.2 (now + 5000)]> (requests s)
  /\ (is_Some (sockets s !! address) ->
      wire r.1 = wire s ++ [frame] /\ sockets r.1 = sockets s)
  /\ (sockets s !! address = None ->
      wire r.1 = wire s ++ [OpConnect address; frame]
      /\ sockets r.1 = <[address := PushConnected]> (sockets s)).
Proof.
  intros Hl Hp Hni r frame. subst r frame.
  unfold send, new_promise, pending. simpl. rewrite Hl. simpl.
  rewrite js_get_patterns_stringify, Hp.
  destruct (js_get (sockets s) address) as [x| |] eqn:Hg; simpl; [| done |].
  - rewrite Hg. apply js_get_Own in Hg. simpl.
    split; [by apply list_lookup_middle|]. split; [done|].
    split; [done|]. intros Hnone. congruence.
  - apply js_get_Undefined_None in Hg.
    assert (js_get (<[address := PushConnected]> (sockets s)) address
            = Own PushConnected) as -> by apply js_get_Own, lookup_insert_eq.
    simpl. split; [by apply list_lookup_middle|]. split; [done|]. split.
    + intros [x Hx]. congruence.
    + intros _. by rewrite <- app_assoc.
Qed.

Lemma X20_send_uses_first_host_witness :
  let s := run [EvWatch "set" "/services/{a:1}/h1" "tcp://10.0.0.1:4000";
                EvWatch "set" "/services/{a:1}/h2" "tcp://10.0.0.2:4000"]
               (boot "u" "tcp://10.0.0.9:4000" []) in
  pending (send 0 [("a", VNum 1)] None s).1 (send 0 [("a", VNum 1)] None s).2.
Proof.
  intros s.
  refine (proj1 (X20_send_uses_first_host 0 [("a", VNum 1)] s [("a", VNum 1)] tt
                   "h1" "tcp://10.0.0.1:4000" [("h2", "tcp://10.0.0.2:4000")]
                   _ _ _)); by vm_compute.
Defined.

(** X21.  A sweep at a time at which no entry of the request table has
    expired, in particular a sweep over an empty table, leaves the whole
    state as it is and re-arms itself with 25 ms. *)
Theorem X21_idle_sweep (now : Z) (s : state) :
  (forall rid r, requests s !! rid = Some r -> (now <= expiresOn r)%Z) ->
  fireRequestTimeouts now s = (s, 25%Z).
Proof.
  intros Hall. unfold fireRequestTimeouts.
  assert (filter (fun e : string * request => expired now e.2 = true)
                 (map_to_list (requests s)) = []) as ->.
  { apply filter_none. apply Forall_forall.
    intros [rid r] Hin. apply elem_of_map_to_list in Hin. simpl.
    unfold expired. rewrite bool_decide_eq_false_2; [done|].
    specialize (Hall rid r Hin). lia. }
  rewrite map_filter_id.
  - simpl. by rewrite state_eta.
  - intros rid r Hr. simpl. unfold expired.
    apply bool_decide_eq_false_2. specialize (Hall rid r Hr). lia.
Qed.

Lemma X21_idle_sweep_witness :
  let s := run [EvWatch "set" "/services/{a:1}/h1" "tcp://10.0.0.1:4000";
                EvSend 1000 [("a", VNum 1)] None]
               (boot "u" "tcp://10.0.0.9:4000" []) in
  fireRequestTimeouts 6000 s = (s, 25%Z).
Proof.
  intros s. apply X21_idle_sweep. intros rid r.
  assert (requests s = {["u:1" := Request 0 6000]}) as -> by by vm_compute.
  intros [_ <-]%lookup_singleton_Some. simpl. lia.
Defined.

(** X22.  The two segments [keydx] takes from a key are non-empty and
    made of characters of its class only: a pattern string or a host id
    with any other character (a slash, a quote, a dollar sign) is never
    what the watch callback sees. *)
Theorem X22_segments_are_in_class (key pattern host : string) :
  keydx_exec key = Some (pattern, host) ->
  nonempty pattern = true /\ all_chars keydx_class pattern = true
  /\ nonempty host = true /\ all_chars keydx_class host = true.
Proof.
  intros Hkey. destruct (keydx_exec_nonempty _ _ _ Hkey) as [Hn1 Hn2].
  assert (all_chars keydx_class pattern = true
          /\ all_chars keydx_class host = true) as [H1 H2]; [|done].
  revert Hkey. induction key as [|c key IH]; cbn [keydx_exec].
  - destruct (keydx_at "") as [[a b]|] eqn:Hat; [|done].
    intros [= <- <-]. by eapply keydx_at_class.
  - destruct (keydx_at (String c key)) as [[a b]|] eqn:Hat; [|done].
    intros [= <- <-]. by eapply keydx_at_class.
Qed.

Lemma X22_segments_are_in_class_witness :
  all_chars keydx_class "{a:1}" = true /\ all_chars keydx_class "h1" = true.
Proof.
  destruct (X22_segments_are_in_class "/x/services/{a:1}/h1/rest" "{a:1}" "h1")
    as (_ & H1 & _ & H2); [reflexivity | by split].
Defined.
